(** * The p2p coordinator of daisy (p2pcoordinator.go)

    A shallow embedding of the coordinator's handlers and the properties of
    peer discovery, saved-peer reconciliation, the time tick and the block
    hash flood.

    Conventions of the embedding.
    - A Go [int] is a [Z]; heights are only read, compared and copied.
    - A Go [string] is a [string] of bytes; [":"] is the single byte 58.
    - A [*p2pConnection] is an index into [heap], the store of all connection
      objects ever allocated; allocation appends, so an index is never reused.
      Go pointers never dangle: statements about a connection name the
      object its pointer is allocated to.
    - A channel is the capacity it was made with, the sequence of values
      sent on it so far and the number of them the receiver has taken. A
      send on a full buffer does not return: the handler stands at it, and
      its outcome carries no value. How it goes on from there depends on the
      receiving goroutine, which is not part of this file.
    - Calls that leave the coordinator and act on or ask the registry, the
      quarantine set, the network, the saved-peer store, a peer's queue or
      the log are recorded, with their answers, in the order they are made.
    - While a handler runs, only the handler and the clock change the world;
      what the other goroutines do happens between two turns of the run
      loop. *)

From Stdlib Require Import ZArith String Ascii DecimalString Decimal Lia.
From stdpp Require Import base gmap strings list.

Open Scope Z_scope.

(** ** Strings: [strings.LastIndex], slicing and [fmt.Sprintf] *)

Module GoStrings.

Definition colon : ascii := ":"%char.

(** [strings.LastIndex(s, sep)] for a separator of one byte: the index of
    the last byte of [s] equal to [c], or -1. *)
Fixpoint LastIndexByte (s : string) (c : ascii) : Z :=
  match s with
  | EmptyString => -1
  | String a s' =>
      let r := LastIndexByte s' c in
      if r >? -1 then r + 1
      else if Ascii.eqb a c then 0 else -1
  end.

(** [s[0:i]] for [0 <= i <= len(s)]. *)
Definition slice_to (s : string) (i : Z) : string :=
  substring 0 (Z.to_nat i) s.

(** The verb [%d] on an [int]. *)
Definition FormatInt (n : Z) : string :=
  NilZero.string_of_int (Z.to_int n).

(** [fmt.Sprintf("%s:%d", host, port)]. *)
Definition Sprintf_s_colon_d (host : string) (port : Z) : string :=
  host +:+ ":" +:+ FormatInt port.

(** No byte of [s] is [c]. *)
Fixpoint free_of (c : ascii) (s : string) : bool :=
  match s with
  | EmptyString => true
  | String a s' => negb (Ascii.eqb a c) && free_of c s'
  end.

End GoStrings.

Import GoStrings.

(** ** Values shared with the rest of the node *)

(** A call that returns [(value, error)]. *)
Inductive result (A : Type) : Type :=
| Ok (a : A)
| Err (e : string).
Arguments Ok {A} a.
Arguments Err {A} e.

(** A channel: the capacity given to [make], the values sent so far and how
    many of them the receiver has taken. What has been sent and not yet
    taken stands in the buffer. *)
Record chan (A : Type) : Type := mkChan {
  capacity : nat;
  sent : list A;
  taken : nat
}.
Arguments mkChan {A} capacity sent taken.
Arguments capacity {A} c.
Arguments sent {A} c.
Arguments taken {A} c.

Definition make {A : Type} (cap : nat) : chan A := mkChan cap [] 0.

Definition buffered {A : Type} (c : chan A) : nat :=
  (length (sent c) - taken c)%nat.

Definition has_room {A : Type} (c : chan A) : bool :=
  (buffered c <? capacity c)%nat.

(** The channel with [v] put at the end of its buffer. *)
Definition chan_push {A : Type} (c : chan A) (v : A) : chan A :=
  mkChan (capacity c) (sent c ++ [v]) (taken c).

(** [c <- v]: the value enters the buffer when there is room; while the
    buffer is full the send does not return ([None]). *)
Definition chan_send {A : Type} (c : chan A) (v : A) : option (chan A) :=
  if has_room c then Some (chan_push c v) else None.

Record p2pMsgHeader : Type := mkHeader { P2pID : Z; Root : string; Msg : string }.

Record p2pMsgGetBlockHashesStruct : Type := mkGetBlockHashes {
  gbhHeader : p2pMsgHeader;
  MinBlockHeight : Z;
  MaxBlockHeight : Z
}.

Record p2pMsgBlockHashesStruct : Type := mkBlockHashes {
  bhHeader : p2pMsgHeader;
  Hashes : list string
}.

(** The values the coordinator sends on a [chan interface{}]. *)
Inductive iface : Type :=
| IGetBlockHashes (m : p2pMsgGetBlockHashesStruct)
| IBlockHashes (m : p2pMsgBlockHashesStruct).

(** [*net.TCPAddr] and [net.Conn], as the network hands them out. *)
Record TCPAddr : Type := mkTCPAddr { IP : string; Port : Z }.
Definition Conn : Type := nat.

(** Time: a [time.Time] is its reading in nanoseconds, a [time.Duration] a
    number of nanoseconds held in an int64. *)
Module GoTime.

Definition Second : Z := 1000000000.
Definition Minute : Z := 60 * Second.

Definition minDuration : Z := - 2 ^ 63.
Definition maxDuration : Z := 2 ^ 63 - 1.

(** [t.Sub(u)]: the difference, held at the ends of the int64 range. *)
Definition Sub (t u : Z) : Z :=
  if t - u <? minDuration then minDuration
  else if t - u >? maxDuration then maxDuration
  else t - u.

End GoTime.

(** Modelled from the spec: [StringSetWithExpiry] and its [Has] are not part
    of p2pcoordinator.go. The spec (sections 2 and 6) gives the contract: a
    set of string keys, each entered with the set's time to live, where
    [contains(key)] holds until that time has elapsed. [items] maps a key to
    the time it was entered. *)
Record StringSetWithExpiry : Type := mkSet { ttl : Z; items : gmap string Z }.

Definition NewStringSetWithExpiry (d : Z) : StringSetWithExpiry := mkSet d ∅.

Definition set_has (s : StringSetWithExpiry) (now : Z) (key : string) : bool :=
  match items s !! key with
  | Some entered => GoTime.Sub now entered <? ttl s
  | None => false
  end.

(** What the coordinator asks of, or does to, the rest of the node. *)
Inductive Event : Type :=
| EvHasAddress (address : string) (found : bool)
| EvBadPeersHas (address : string) (found : bool)
| EvResolveTCPAddr (address : string) (answer : result TCPAddr)
| EvDialTCP (addr : TCPAddr) (answer : result Conn)
| EvDial (address : string) (answer : result Conn)
| EvAdd (p : nat)
| EvGoHandleConnection (p : nat)
| EvSend (p : nat) (v : iface)
| EvLog (line : string)
| EvDbSavePeer (address : string)
| EvDbGetSavedPeers
| EvGoTimeTickSource.

(** The control messages, as the run loop dispatches them: the message type
    and the payload it is sent with. A type the switch has no case for is
    [CtrlOther]. *)
Inductive p2pCtrlMessage : Type :=
| p2pCtrlSearchForBlocks (payload : nat)
| p2pCtrlDiscoverPeers (payload : list string)
| CtrlOther.

(** The sends among the calls made: which value went to which connection. *)
Fixpoint sends (evs : list Event) : list (nat * iface) :=
  match evs with
  | [] => []
  | EvSend p v :: evs' => (p, v) :: sends evs'
  | _ :: evs' => sends evs'
  end.

(** What must stand just before a call to the network: the two checks of
    the address, both answered no; and before a dial of a resolved address,
    also the resolution that gave it. *)
Definition dial_guard (e : Event) (before : list Event) : Prop :=
  match e with
  | EvResolveTCPAddr a _ | EvDial a _ =>
      ∃ earlier,
        before = earlier ++ [EvHasAddress a false; EvBadPeersHas a false]
  | EvDialTCP addr _ =>
      ∃ earlier a,
        before = earlier ++ [EvHasAddress a false; EvBadPeersHas a false;
                             EvResolveTCPAddr a (Ok addr)]
  | _ => True
  end.

Definition dials_guarded (evs : list Event) : Prop :=
  ∀ before e rest, evs = before ++ e :: rest -> dial_guard e before.

(** The connections registered, the workers started, the addresses saved
    and the tick sources started among the calls made, in order. *)
Fixpoint added (evs : list Event) : list nat :=
  match evs with
  | [] => []
  | EvAdd p :: evs' => p :: added evs'
  | _ :: evs' => added evs'
  end.

Fixpoint spawned (evs : list Event) : list nat :=
  match evs with
  | [] => []
  | EvGoHandleConnection p :: evs' => p :: spawned evs'
  | _ :: evs' => spawned evs'
  end.

Fixpoint persisted (evs : list Event) : list string :=
  match evs with
  | [] => []
  | EvDbSavePeer a :: evs' => a :: persisted evs'
  | _ :: evs' => persisted evs'
  end.

Fixpoint tickSources (evs : list Event) : nat :=
  match evs with
  | [] => 0%nat
  | EvGoTimeTickSource :: evs' => S (tickSources evs')
  | _ :: evs' => tickSources evs'
  end.

(** ** The coordinator *)

Section Coordinator.

(** Declared elsewhere in the package: the element type of a connection's
    inbound queue and the constants put into addresses and headers. *)
Context {StrIfMap : Type}.
Variable DefaultP2PPort : Z.
Variable p2pEphemeralID : Z.
Variable GenesisBlockHash : string.
Variable p2pMsgGetBlockHashes : string.
Variable p2pMsgBlockHashes : string.

Record p2pConnection : Type := mkConn {
  conn : Conn;
  address : string;
  chainHeight : Z;
  chanToPeer : chan iface;
  chanFromPeer : chan StrIfMap
}.

Record p2pCoordinatorType : Type := mkCoordinator {
  timeTicks : chan Z;
  lastTickBlockchainHeight : Z;
  recentlyRequestedBlocks : StringSetWithExpiry;
  lastReconnectTime : Z;
  badPeers : StringSetWithExpiry
}.

(** The package-level value [p2pCoordinator], given the reading of
    [time.Now()] at its initialisation. *)
Definition p2pCoordinator (now : Z) : p2pCoordinatorType :=
  mkCoordinator (make 0) 0
    (NewStringSetWithExpiry (5 * GoTime.Second)) now
    (NewStringSetWithExpiry (15 * GoTime.Minute)).

(** Everything the handlers read or write.
    - [co]: the coordinator ([co *p2pCoordinatorType]).
    - [peers], [heap]: the key set of [p2pPeers.peers] and the connection
      objects the keys point to.
    - [dbBlockchainHeight], [dbBlockHash], [dbSavedPeers]: the database.
    - [netResolveTCPAddr], [netDialTCP], [netDial]: how the network
      answers.
    - [clock], [clockReads]: the successive readings of [time.Now()] and
      how many have been taken. *)
Record World : Type := mkWorld {
  co : p2pCoordinatorType;
  peers : gset nat;
  heap : list p2pConnection;
  dbBlockchainHeight : Z;
  dbBlockHash : Z -> string;
  dbSavedPeers : gset string;
  netResolveTCPAddr : string -> result TCPAddr;
  netDialTCP : TCPAddr -> result Conn;
  netDial : string -> result Conn;
  clock : nat -> Z;
  clockReads : nat
}.

Definition with_co (f : p2pCoordinatorType -> p2pCoordinatorType) (w : World) : World :=
  mkWorld (f (co w)) (peers w) (heap w) (dbBlockchainHeight w) (dbBlockHash w)
    (dbSavedPeers w) (netResolveTCPAddr w) (netDialTCP w) (netDial w)
    (clock w) (clockReads w).

Definition with_peers (f : gset nat -> gset nat) (w : World) : World :=
  mkWorld (co w) (f (peers w)) (heap w) (dbBlockchainHeight w) (dbBlockHash w)
    (dbSavedPeers w) (netResolveTCPAddr w) (netDialTCP w) (netDial w)
    (clock w) (clockReads w).

Definition with_heap (f : list p2pConnection -> list p2pConnection) (w : World) : World :=
  mkWorld (co w) (peers w) (f (heap w)) (dbBlockchainHeight w) (dbBlockHash w)
    (dbSavedPeers w) (netResolveTCPAddr w) (netDialTCP w) (netDial w)
    (clock w) (clockReads w).

Definition with_dbBlockchainHeight (f : Z -> Z) (w : World) : World :=
  mkWorld (co w) (peers w) (heap w) (f (dbBlockchainHeight w)) (dbBlockHash w)
    (dbSavedPeers w) (netResolveTCPAddr w) (netDialTCP w) (netDial w)
    (clock w) (clockReads w).

Definition with_dbSavedPeers (f : gset string -> gset string) (w : World) : World :=
  mkWorld (co w) (peers w) (heap w) (dbBlockchainHeight w) (dbBlockHash w)
    (f (dbSavedPeers w)) (netResolveTCPAddr w) (netDialTCP w) (netDial w)
    (clock w) (clockReads w).

Definition with_clockReads (f : nat -> nat) (w : World) : World :=
  mkWorld (co w) (peers w) (heap w) (dbBlockchainHeight w) (dbBlockHash w)
    (dbSavedPeers w) (netResolveTCPAddr w) (netDialTCP w) (netDial w)
    (clock w) (f (clockReads w)).

Definition set_lastTickBlockchainHeight (h : Z) (c : p2pCoordinatorType) : p2pCoordinatorType :=
  mkCoordinator (timeTicks c) h (recentlyRequestedBlocks c)
    (lastReconnectTime c) (badPeers c).

Definition set_lastReconnectTime (t : Z) (c : p2pCoordinatorType) : p2pCoordinatorType :=
  mkCoordinator (timeTicks c) (lastTickBlockchainHeight c)
    (recentlyRequestedBlocks c) t (badPeers c).

(** *** Computations: a world in, a value, a world and the calls made out *)

(** The value is [None] when the computation has not returned: it stands at
    a send on a full queue, in the world and after the calls given. *)
Definition M (A : Type) : Type := World -> option A * World * list Event.

Definition value {A : Type} (r : option A * World * list Event) : option A :=
  r.1.1.
Definition after {A : Type} (r : option A * World * list Event) : World :=
  r.1.2.
Definition calls {A : Type} (r : option A * World * list Event) : list Event :=
  r.2.

#[export] Instance M_ret : MRet M := λ A a w, (Some a, w, []).

#[export] Instance M_bind : MBind M := λ A B k m w,
  let '(a, w1, evs1) := m w in
  match a with
  | Some x => let '(b, w2, evs2) := k x w1 in (b, w2, evs1 ++ evs2)
  | None => (None, w1, evs1)
  end.

Definition gets {A : Type} (f : World -> A) : M A := λ w, (Some (f w), w, []).
Definition modify (f : World -> World) : M unit := λ w, (Some tt, f w, []).
Definition emit (e : Event) : M unit := λ w, (Some tt, w, [e]).

(** The outcome [r] with the calls [evs] made before it. *)
Definition prepend {A : Type} (evs : list Event)
    (r : option A * World * list Event) : option A * World * list Event :=
  (value r, after r, evs ++ calls r).

Fixpoint forEach {A : Type} (l : list A) (body : A -> M unit) : M unit :=
  match l with
  | [] => mret tt
  | x :: l' => body x ;; forEach l' body
  end.

(** *** The clock *)

(** [time.Now()]: the next reading of the clock. *)
Definition timeNow : M Z := λ w,
  (Some (clock w (clockReads w)), with_clockReads S w, []).

(** [time.Since(t)] is [time.Now().Sub(t)]. *)
Definition timeSince (t : Z) : M Z :=
  now ← timeNow; mret (GoTime.Sub now t).

(** *** The registry [p2pPeers] *)

(** Modelled from the spec: [p2pPeers.HasAddress] is not part of
    p2pcoordinator.go. The spec (section 2) has the registry keyed by
    address with a membership test: some registered connection carries
    this address. *)
Definition hasAddress (w : World) (a : string) : bool :=
  existsb (λ p, match heap w !! p with
                | Some c => String.eqb (address c) a
                | None => false
                end) (elements (peers w)).

Definition p2pPeers_HasAddress (a : string) : M bool :=
  found ← gets (λ w, hasAddress w a);
  emit (EvHasAddress a found);;
  mret found.

(** [p2pc := p2pConnection{...}] followed by [&p2pc]: the object gets a
    place of its own in the store. *)
Definition new_p2pConnection (c : p2pConnection) : M nat :=
  p ← gets (λ w, length (heap w));
  modify (with_heap (λ h, h ++ [c]));;
  mret p.

Definition with_chanToPeer (ch : chan iface) (c : p2pConnection) : p2pConnection :=
  mkConn (conn c) (address c) (chainHeight c) ch (chanFromPeer c).

(** The connection [c] once [v] has entered the buffer of its
    [chanToPeer]. *)
Definition enqueue (v : iface) (c : p2pConnection) : p2pConnection :=
  with_chanToPeer (chan_push (chanToPeer c) v) c.

(** A send through the pointer [p] would find the buffer full. *)
Definition blocked_at (w : World) (p : nat) : bool :=
  match heap w !! p with
  | Some c => negb (has_room (chanToPeer c))
  | None => false
  end.

(** The world once the new connection [c] is allocated and registered. *)
Definition register (c : p2pConnection) (w : World) : World :=
  with_peers (λ ps, {[length (heap w)]} ∪ ps) (with_heap (λ h, h ++ [c]) w).

(** The store once [v] has been sent to each connection of [l] in turn. *)
Definition sendAll (v : iface) (l : list nat) (h : list p2pConnection)
  : list p2pConnection :=
  foldl (λ h p, alter (enqueue v) p h) h l.

(** Modelled from the spec: [p2pPeers.Add] is not part of
    p2pcoordinator.go; it registers the connection (section 2). *)
Definition p2pPeers_Add (p : nat) : M unit :=
  modify (with_peers (λ ps, {[p]} ∪ ps));;
  emit (EvAdd p).

(** [go p2pc.handleConnection()]. *)
Definition go_handleConnection (p : nat) : M unit :=
  emit (EvGoHandleConnection p).

(** [p2pc.chanToPeer <- v] through the pointer [p]. *)
Definition send_chanToPeer (p : nat) (v : iface) : M unit := λ w,
  match heap w !! p with
  | Some c =>
      match chan_send (chanToPeer c) v with
      | Some ch =>
          (Some tt, with_heap (λ h, <[p := with_chanToPeer ch c]> h) w,
           [EvSend p v])
      | None => (None, w, [])
      end
  | None => (Some tt, w, [EvSend p v])
  end.

(** [p2pcStart.chainHeight]; an unallocated place reads as the zero
    value. *)
Definition get_chainHeight (p : nat) : M Z :=
  gets (λ w, match heap w !! p with
             | Some c => chainHeight c
             | None => 0
             end).

(** *** The quarantine set *)

(** [co.badPeers.Has(key)], asked at the current time. *)
Definition badPeers_Has (key : string) : M bool :=
  now ← timeNow;
  found ← gets (λ w, set_has (badPeers (co w)) now key);
  emit (EvBadPeersHas key found);;
  mret found.

(** *** The database *)

Definition dbGetBlockchainHeight : M Z := gets dbBlockchainHeight.

(** Modelled from the spec: [dbGetHeightHashes] is not part of
    p2pcoordinator.go. The spec (section 6) gives
    [hashesInRange(minExclusive, maxInclusive)] as the ordered sequence of
    the hashes of the heights above the first bound, up to and including
    the second. *)
Definition dbGetHeightHashes (minHeight maxHeight : Z) : M (list string) :=
  gets (λ w, dbBlockHash w <$> seqZ (minHeight + 1) (maxHeight - minHeight)).

(** Modelled from the spec: [dbSavePeer] and [dbGetSavedPeers] are not
    part of p2pcoordinator.go; section 6 has [savePeerAddress(addr)] and
    [savedPeerAddresses()], a set of addresses. *)
Definition dbSavePeer (a : string) : M unit :=
  modify (with_dbSavedPeers (λ ps, {[a]} ∪ ps));;
  emit (EvDbSavePeer a).

Definition dbGetSavedPeers : M (gset string) :=
  emit EvDbGetSavedPeers;;
  gets dbSavedPeers.

(** *** The network and the log *)

Definition net_ResolveTCPAddr (a : string) : M (result TCPAddr) :=
  r ← gets (λ w, netResolveTCPAddr w a);
  emit (EvResolveTCPAddr a r);;
  mret r.

Definition net_DialTCP (addr : TCPAddr) : M (result Conn) :=
  r ← gets (λ w, netDialTCP w addr);
  emit (EvDialTCP addr r);;
  mret r.

Definition net_Dial (a : string) : M (result Conn) :=
  r ← gets (λ w, netDial w a);
  emit (EvDial a r);;
  mret r.

Definition log_Print (line : string) : M unit := emit (EvLog line).

(** *** The handlers *)

Definition handleSearchForBlocks (p2pcStart : nat) : M unit :=
  minHeight ← dbGetBlockchainHeight;
  maxHeight ← get_chainHeight p2pcStart;
  let msg := mkGetBlockHashes
               (mkHeader p2pEphemeralID GenesisBlockHash p2pMsgGetBlockHashes)
               minHeight maxHeight in
  log_Print ("Searching for blocks from " +:+ FormatInt (MinBlockHeight msg)
             +:+ " to " +:+ FormatInt (MaxBlockHeight msg));;
  send_chanToPeer p2pcStart (IGetBlockHashes msg).

(** Lines 73-80: the host is what stands before the last colon, or the
    whole address when there is none; the default port is put after it. *)
Definition canonicalAddress (address : string) : string :=
  let i := LastIndexByte address colon in
  let host := if i >? -1 then slice_to address i else address in
  Sprintf_s_colon_d host DefaultP2PPort.

(** The loop over [addresses]. [continue] is the call on the rest of the
    list, [return] is [mret tt]. *)
Fixpoint handleDiscoverPeers (addresses : list string) : M unit :=
  match addresses with
  | [] => mret tt
  | address :: rest =>
      let canonical := canonicalAddress address in
      registered ← p2pPeers_HasAddress canonical;
      if (registered : bool) then handleDiscoverPeers rest
      else
        quarantined ← badPeers_Has canonical;
        if (quarantined : bool) then handleDiscoverPeers rest
        else
          resolved ← net_ResolveTCPAddr canonical;
          match resolved with
          | Err _ => mret tt
          | Ok addr =>
              dialed ← net_DialTCP addr;
              match dialed with
              | Err _ => mret tt
              | Ok cn =>
                  p2pc ← new_p2pConnection
                           (mkConn cn canonical 0 (make 5) (make 5));
                  p2pPeers_Add p2pc;;
                  go_handleConnection p2pc;;
                  log_Print ("Detected canonical peer at " +:+ canonical);;
                  dbSavePeer canonical;;
                  handleDiscoverPeers rest
              end
          end
  end.

Definition floodPeersWithNewBlocks (minHeight maxHeight : Z) : M unit :=
  blockHashes ← dbGetHeightHashes minHeight maxHeight;
  let msg := mkBlockHashes
               (mkHeader p2pEphemeralID GenesisBlockHash p2pMsgBlockHashes)
               blockHashes in
  registered ← gets peers;
  forEach (elements registered)
          (λ p2pc, send_chanToPeer p2pc (IBlockHashes msg)).

(** The loop of [connectDbPeers] over the saved addresses. *)
Fixpoint connectEach (saved : list string) : M unit :=
  match saved with
  | [] => mret tt
  | peer :: rest =>
      registered ← p2pPeers_HasAddress peer;
      if (registered : bool) then connectEach rest
      else
        quarantined ← badPeers_Has peer;
        if (quarantined : bool) then connectEach rest
        else
          dialed ← net_Dial peer;
          match dialed with
          | Err e =>
              log_Print ("Error connecting to " +:+ peer +:+ " " +:+ e);;
              connectEach rest
          | Ok cn =>
              p2pc ← new_p2pConnection (mkConn cn peer 0 (make 5) (make 5));
              p2pPeers_Add p2pc;;
              go_handleConnection p2pc;;
              connectEach rest
          end
  end.

Definition connectDbPeers : M unit :=
  saved ← dbGetSavedPeers;
  connectEach (elements saved).

Definition handleTimeTick : M unit :=
  newHeight ← dbGetBlockchainHeight;
  lastHeight ← gets (λ w, lastTickBlockchainHeight (co w));
  (if newHeight >? lastHeight then
     floodPeersWithNewBlocks lastHeight newHeight;;
     modify (with_co (set_lastTickBlockchainHeight newHeight))
   else mret tt);;
  lastReconnect ← gets (λ w, lastReconnectTime (co w));
  elapsed ← timeSince lastReconnect;
  if elapsed >=? 10 * GoTime.Minute then
    now ← timeNow;
    modify (with_co (set_lastReconnectTime now));;
    connectDbPeers
  else mret tt.

(** The two steps of [handleTimeTick] on their own: lines 109-113 and lines
    114-117. *)
Definition tickFlood : M unit :=
  newHeight ← dbGetBlockchainHeight;
  lastHeight ← gets (λ w, lastTickBlockchainHeight (co w));
  if newHeight >? lastHeight then
    floodPeersWithNewBlocks lastHeight newHeight;;
    modify (with_co (set_lastTickBlockchainHeight newHeight))
  else mret tt.

Definition tickReconnect : M unit :=
  lastReconnect ← gets (λ w, lastReconnectTime (co w));
  elapsed ← timeSince lastReconnect;
  if elapsed >=? 10 * GoTime.Minute then
    now ← timeNow;
    modify (with_co (set_lastReconnectTime now));;
    connectDbPeers
  else mret tt.

(** *** The run loop *)

(** What one turn of the [select] receives. Between two turns the other
    goroutines of the node act on everything but the coordinator's own
    fields: [Elsewhere f]. *)
Inductive received : Type :=
| FromCtrlChannel (msg : p2pCtrlMessage)
| FromTimeTicks
| Elsewhere (f : World -> World).

Definition turn (r : received) : M unit :=
  match r with
  | FromCtrlChannel (p2pCtrlSearchForBlocks payload) =>
      handleSearchForBlocks payload
  | FromCtrlChannel (p2pCtrlDiscoverPeers payload) =>
      handleDiscoverPeers payload
  | FromCtrlChannel CtrlOther => mret tt
  | FromTimeTicks => handleTimeTick
  | Elsewhere f => modify (λ w, with_co (λ _, co w) (f w))
  end.

(** The body of [for { select { ... } }], for the turns taken so far. *)
Fixpoint runLoop (rs : list received) : M unit :=
  match rs with
  | [] => mret tt
  | r :: rs' => turn r ;; runLoop rs'
  end.

Definition Run (rs : list received) : M unit :=
  height ← dbGetBlockchainHeight;
  modify (with_co (set_lastTickBlockchainHeight height));;
  emit EvGoTimeTickSource;;
  runLoop rs.

(** *** What the handlers keep *)

(** A connection as both loops build it: no height known yet, both queues
    made with room for five and nothing sent. *)
Definition fresh_connection (c : p2pConnection) : Prop :=
  chainHeight c = 0 ∧ chanToPeer c = make 5 ∧ chanFromPeer c = make 5.

(** The registry is in order: every registered pointer is allocated, and no
    two registered connections carry the same address. *)
Definition registry_ok (ps : gset nat) (h : list p2pConnection) : Prop :=
  (∀ p, p ∈ ps -> (p < length h)%nat)
  ∧ (∀ p q c d, p ∈ ps -> q ∈ ps -> h !! p = Some c -> h !! q = Some d ->
       address c = address d -> p = q).

(** The coordinator's fields, the chain, the network's answers and the
    clock's readings are in [w'] what they are in [w]. *)
Definition same_surroundings (w w' : World) : Prop :=
  co w' = co w
  ∧ dbBlockchainHeight w' = dbBlockchainHeight w
  ∧ dbBlockHash w' = dbBlockHash w
  ∧ netResolveTCPAddr w' = netResolveTCPAddr w
  ∧ netDialTCP w' = netDialTCP w
  ∧ netDial w' = netDial w
  ∧ clock w' = clock w.

(** Lines 73-79: the host of a candidate address. *)
Definition hostOf (address : string) : string :=
  let i := LastIndexByte address colon in
  if i >? -1 then slice_to address i else address.

(** *** Tactics for running the handlers *)

Ltac run_M :=
  unfold mbind, M_bind, mret, M_ret, gets, modify, emit; cbn.

Ltac unfold_ops :=
  unfold p2pPeers_HasAddress, badPeers_Has, net_ResolveTCPAddr, net_DialTCP,
    net_Dial, new_p2pConnection, p2pPeers_Add, go_handleConnection,
    log_Print, dbSavePeer, dbGetSavedPeers, dbGetBlockchainHeight,
    dbGetHeightHashes, send_chanToPeer, timeSince, timeNow, get_chainHeight.

Ltac name_outcome m :=
  let b := fresh "b" in let w := fresh "w'" in let evs := fresh "evs" in
  destruct m as [[b w] evs].

Ltac same_world :=
  match goal with
  | |- _ = prepend _ (connectDbPeers ?y) =>
      match goal with
      | |- context [connectDbPeers ?x] =>
          change x with y; let W := fresh "W" in set (W := y)
      end
  end.

Ltac guard_block :=
  let before := fresh "before" in
  let Heq := fresh "Heq" in
  intros before ? ? Heq;
  repeat (destruct before as [|? before];
          [ injection Heq as <- <-; cbn;
            first [ exact I | by exists [] | by eexists [], _ ]
          | injection Heq as <- Heq ]);
  destruct before; discriminate Heq.

(** *** A small node to run the handlers on *)

(** Only the canonical form of ["10.0.0.2"] resolves. *)
Definition exampleResolve (a : string) : result TCPAddr :=
  if String.eqb a (canonicalAddress "10.0.0.2")
  then Ok (mkTCPAddr "10.0.0.2" DefaultP2PPort)
  else Err "no such host".

(** Only ["10.0.0.3:7777"] accepts a connection. *)
Definition exampleDial (a : string) : result Conn :=
  if String.eqb a "10.0.0.3:7777" then Ok 3%nat else Err "connection refused".

(** One registered peer, the last tick at height 100, the chain at 103, two
    saved peers, and a clock that reads [now], [now + 1], ... *)
Definition exampleWorld (now : Z) : World :=
  mkWorld (set_lastTickBlockchainHeight 100 (p2pCoordinator 0))
    {[0%nat]}
    [mkConn 1%nat "10.0.0.1:7777" 105 (make 5) (make 5)]
    103 (λ h, "hash" +:+ FormatInt h)
    {["10.0.0.1:7777"; "10.0.0.3:7777"]}
    exampleResolve (λ _, Ok 2%nat) exampleDial
    (λ n, now + Z.of_nat n) 0.

(** A value that was sent earlier and still stands in a buffer. *)
Definition exampleOlder : iface :=
  IBlockHashes (mkBlockHashes (mkHeader 7 "genesis" "blockhashes") ["hash100"]).

(** The small node with the outbound queue of its one peer full: five values
    sent, none taken. *)
Definition exampleFullWorld (now : Z) : World :=
  with_heap (λ _, [mkConn 1%nat "10.0.0.1:7777" 105
                     (mkChan 5 [exampleOlder; exampleOlder; exampleOlder;
                                exampleOlder; exampleOlder] 0)
                     (make 5)])
            (exampleWorld now).


(** ** Lemmas on strings *)

Lemma LastIndexByte_lower s c : -1 <= LastIndexByte s c.
Proof.
  induction s as [|a s IH]; simpl; [lia|].
  destruct (LastIndexByte s c >? -1) eqn:E.
  - apply Z.gtb_lt in E. lia.
  - destruct (Ascii.eqb a c); lia.
Qed.

Lemma LastIndexByte_free s c : free_of c s = true -> LastIndexByte s c = -1.
Proof.
  induction s as [|a s IH]; simpl; [reflexivity|].
  intros H. apply andb_true_iff in H as [Ha Hs].
  rewrite (IH Hs). simpl.
  destruct (Ascii.eqb a c); [discriminate|reflexivity].
Qed.

Lemma LastIndexByte_split pre post c :
  free_of c post = true ->
  LastIndexByte (pre +:+ String c post) c = Z.of_nat (String.length pre).
Proof.
  intros Hfree. induction pre as [|a pre IH].
  - simpl. rewrite (LastIndexByte_free _ _ Hfree). simpl.
    rewrite Ascii.eqb_refl. reflexivity.
  - change (String a pre +:+ String c post) with (String a (pre +:+ String c post)).
    cbn [LastIndexByte String.length]. rewrite IH.
    replace (Z.of_nat (String.length pre) >? -1) with true
      by (symmetry; apply Z.gtb_lt; lia).
    lia.
Qed.

Lemma substring_prefix pre post :
  substring 0 (String.length pre) (pre +:+ post) = pre.
Proof.
  induction pre as [|a pre IH]; simpl.
  - destruct post; reflexivity.
  - rewrite IH. reflexivity.
Qed.

Lemma free_of_uint d : free_of colon (NilEmpty.string_of_uint d) = true.
Proof. induction d; simpl; auto. Qed.

Lemma free_of_FormatInt n : free_of colon (FormatInt n) = true.
Proof.
  unfold FormatInt. destruct (Z.to_int n) as [d|d]; simpl.
  - destruct d; try reflexivity; simpl; apply free_of_uint.
  - destruct d; try reflexivity; simpl; apply free_of_uint.
Qed.

(** ** The canonical address *)

Lemma canonicalAddress_shape address :
  ∃ host, canonicalAddress address = host +:+ String colon (FormatInt DefaultP2PPort).
Proof. unfold canonicalAddress, Sprintf_s_colon_d. eexists. reflexivity. Qed.

Lemma canonicalAddress_split pre post :
  free_of colon post = true ->
  canonicalAddress (pre +:+ String colon post) =
  pre +:+ ":" +:+ FormatInt DefaultP2PPort.
Proof.
  intros Hfree. unfold canonicalAddress.
  rewrite (LastIndexByte_split _ _ _ Hfree).
  replace (Z.of_nat (String.length pre) >? -1) with true
    by (symmetry; apply Z.gtb_lt; lia).
  unfold slice_to. rewrite Nat2Z.id, substring_prefix. reflexivity.
Qed.

(** C6. Canonicalising is idempotent: on every string, doing it twice gives
    what doing it once gives; and ["1.2.3.4"] and ["1.2.3.4:9999"] both
    become ["1.2.3.4:"] followed by the default port. *)
Theorem canonicalAddress_idempotent :
  (∀ address,
     canonicalAddress (canonicalAddress address) = canonicalAddress address)
  ∧ canonicalAddress "1.2.3.4" = "1.2.3.4:" +:+ FormatInt DefaultP2PPort
  ∧ canonicalAddress "1.2.3.4:9999" = "1.2.3.4:" +:+ FormatInt DefaultP2PPort.
Proof.
  split; [|split].
  - intros address. destruct (canonicalAddress_shape address) as [host ->].
    apply canonicalAddress_split, free_of_FormatInt.
  - reflexivity.
  - reflexivity.
Qed.

(** C10. Whatever follows the last colon is dropped: an address that reads
    [pre], a colon, and a colon-free [post] becomes [pre], a colon and the
    default port; so ["::1"] becomes ["::"] followed by the default port. *)
Theorem canonicalAddress_drops_after_last_colon address pre post :
  address = pre +:+ ":" +:+ post ->
  free_of colon post = true ->
  canonicalAddress address = pre +:+ ":" +:+ FormatInt DefaultP2PPort
  ∧ canonicalAddress "::1" = "::" +:+ FormatInt DefaultP2PPort.
Proof.
  intros -> Hfree. split.
  - apply (canonicalAddress_split pre post Hfree).
  - reflexivity.
Qed.

(** ** The search-for-blocks handler *)

(** ** Sending *)

Lemma alter_unallocated {A : Type} (f : A -> A) (h : list A) p :
  h !! p = None -> alter f p h = h.
Proof.
  intros Hp. apply list_eq. intros i. destruct (decide (p = i)) as [<-|Hne].
  - by rewrite list_lookup_alter_eq, Hp.
  - by rewrite list_lookup_alter_ne.
Qed.

Lemma with_heap_same w h : h = heap w -> with_heap (λ _, h) w = w.
Proof. intros ->. by destruct w. Qed.

Lemma send_chanToPeer_run p v w :
  send_chanToPeer p v w =
  if blocked_at w p then (None, w, [])
  else (Some tt, with_heap (alter (enqueue v) p) w, [EvSend p v]).
Proof.
  unfold send_chanToPeer, blocked_at, chan_send. cbn beta.
  destruct (heap w !! p) as [c|] eqn:Hp.
  - destruct (has_room (chanToPeer c)); cbn; [|reflexivity].
    unfold with_heap. do 3 f_equal.
    rewrite list_insert_alter. apply list_alter_ext; [|reflexivity].
    intros x Hx. rewrite Hp in Hx. by injection Hx as <-.
  - cbn. do 2 f_equal.
    change (with_heap (alter (enqueue v) p) w)
      with (with_heap (λ _, alter (enqueue v) p (heap w)) w).
    symmetry. apply with_heap_same. by apply alter_unallocated.
Qed.

Lemma blocked_at_room w p c :
  heap w !! p = Some c -> blocked_at w p = negb (has_room (chanToPeer c)).
Proof. unfold blocked_at. by intros ->. Qed.

Lemma sent_enqueue v c :
  sent (chanToPeer (enqueue v c)) = sent (chanToPeer c) ++ [v].
Proof. reflexivity. Qed.

Lemma handleSearchForBlocks_run w p :
  handleSearchForBlocks p w =
  let maxHeight := match heap w !! p with
                   | Some c => chainHeight c
                   | None => 0
                   end in
  let request := IGetBlockHashes
                   (mkGetBlockHashes
                      (mkHeader p2pEphemeralID GenesisBlockHash p2pMsgGetBlockHashes)
                      (dbBlockchainHeight w) maxHeight) in
  let line := "Searching for blocks from " +:+ FormatInt (dbBlockchainHeight w)
              +:+ " to " +:+ FormatInt maxHeight in
  if blocked_at w p then (None, w, [EvLog line])
  else (Some tt, with_heap (alter (enqueue request) p) w,
        [EvLog line; EvSend p request]).
Proof.
  unfold handleSearchForBlocks, log_Print, dbGetBlockchainHeight, get_chainHeight.
  unfold mbind, M_bind, mret, M_ret, gets, modify, emit. cbn zeta.
  rewrite send_chanToPeer_run.
  destruct (blocked_at w p); reflexivity.
Qed.

(** C7. On a search-for-blocks message carrying the connection [p], the
    handler builds one get-block-hashes request, with the persisted height
    as minimum and [p]'s chain height as maximum. When [p]'s outbound queue
    has room the request is sent on it, once, and the handler returns; when
    the queue is full the handler stands at the send and nothing has been
    put on the queue. *)
Theorem handleSearchForBlocks_request w p c :
  heap w !! p = Some c ->
  let r := handleSearchForBlocks p w in
  let request := IGetBlockHashes
                   (mkGetBlockHashes
                      (mkHeader p2pEphemeralID GenesisBlockHash p2pMsgGetBlockHashes)
                      (dbBlockchainHeight w) (chainHeight c)) in
  (has_room (chanToPeer c) = true ->
     value r = Some tt
     ∧ sends (calls r) = [(p, request)]
     ∧ heap (after r) !! p = Some (enqueue request c)
     ∧ sent (chanToPeer (enqueue request c)) = sent (chanToPeer c) ++ [request])
  ∧ (has_room (chanToPeer c) = false ->
     value r = None
     ∧ sends (calls r) = []
     ∧ heap (after r) !! p = Some c).
Proof.
  intros Hp. rewrite handleSearchForBlocks_run, (blocked_at_room w p c Hp), Hp.
  cbn zeta. split; intros Hroom; rewrite Hroom; cbn.
  - split; [reflexivity|]. split; [reflexivity|]. split; [|reflexivity].
    unfold after. cbn. rewrite list_lookup_alter_eq, Hp. reflexivity.
  - split; [reflexivity|]. split; [reflexivity|exact Hp].
Qed.

(** C8. The search-for-blocks handler leaves the coordinator's fields as
    they are; all it does to the world is the one send on the given
    connection's outbound queue, and while that queue is full not even
    that. *)
Theorem handleSearchForBlocks_frame w p :
  let r := handleSearchForBlocks p w in
  lastTickBlockchainHeight (co (after r)) = lastTickBlockchainHeight (co w)
  ∧ lastReconnectTime (co (after r)) = lastReconnectTime (co w)
  ∧ recentlyRequestedBlocks (co (after r)) = recentlyRequestedBlocks (co w)
  ∧ badPeers (co (after r)) = badPeers (co w)
  ∧ co (after r) = co w
  ∧ ((blocked_at w p = false
      ∧ value r = Some tt
      ∧ ∃ v, sends (calls r) = [(p, v)]
             ∧ after r = with_heap (alter (enqueue v) p) w)
     ∨ (blocked_at w p = true
        ∧ value r = None
        ∧ sends (calls r) = []
        ∧ after r = w)).
Proof.
  rewrite handleSearchForBlocks_run. cbn zeta.
  destruct (blocked_at w p); cbn.
  - repeat split; try reflexivity. right. repeat split.
  - repeat split; try reflexivity. left. repeat split.
    eexists. split; reflexivity.
Qed.

(** ** One turn of each loop *)

Lemma connectEach_cons peer rest w :
  connectEach (peer :: rest) w =
  let w1 := with_clockReads S w in
  let p := length (heap w) in
  if hasAddress w peer then
    prepend [EvHasAddress peer true] (connectEach rest w)
  else if set_has (badPeers (co w)) (clock w (clockReads w)) peer then
    prepend [EvHasAddress peer false; EvBadPeersHas peer true]
            (connectEach rest w1)
  else match netDial w peer with
       | Err e =>
           prepend [EvHasAddress peer false; EvBadPeersHas peer false;
                    EvDial peer (Err e);
                    EvLog ("Error connecting to " +:+ peer +:+ " " +:+ e)]
                   (connectEach rest w1)
       | Ok cn =>
           prepend [EvHasAddress peer false; EvBadPeersHas peer false;
                    EvDial peer (Ok cn); EvAdd p; EvGoHandleConnection p]
                   (connectEach rest
                      (register (mkConn cn peer 0 (make 5) (make 5)) w1))
       end.
Proof.
  cbn [connectEach]. unfold_ops. run_M.
  destruct (hasAddress w peer).
  { name_outcome (connectEach rest w). reflexivity. }
  cbn. destruct (set_has _ _ peer).
  { name_outcome (connectEach rest (with_clockReads S w)). reflexivity. }
  cbn. destruct (netDial w peer) as [cn|e]; unfold prepend, register; cbn.
  - match goal with |- context [connectEach rest ?x] =>
      name_outcome (connectEach rest x) end. reflexivity.
  - match goal with |- context [connectEach rest ?x] =>
      name_outcome (connectEach rest x) end. reflexivity.
Qed.

Lemma handleDiscoverPeers_cons address rest w :
  handleDiscoverPeers (address :: rest) w =
  let a := canonicalAddress address in
  let w1 := with_clockReads S w in
  let p := length (heap w) in
  if hasAddress w a then
    prepend [EvHasAddress a true] (handleDiscoverPeers rest w)
  else if set_has (badPeers (co w)) (clock w (clockReads w)) a then
    prepend [EvHasAddress a false; EvBadPeersHas a true]
            (handleDiscoverPeers rest w1)
  else match netResolveTCPAddr w a with
       | Err e =>
           (Some tt, w1, [EvHasAddress a false; EvBadPeersHas a false;
                     EvResolveTCPAddr a (Err e)])
       | Ok addr =>
           match netDialTCP w addr with
           | Err e =>
               (Some tt, w1, [EvHasAddress a false; EvBadPeersHas a false;
                         EvResolveTCPAddr a (Ok addr);
                         EvDialTCP addr (Err e)])
           | Ok cn =>
               prepend [EvHasAddress a false; EvBadPeersHas a false;
                        EvResolveTCPAddr a (Ok addr);
                        EvDialTCP addr (Ok cn);
                        EvAdd p; EvGoHandleConnection p;
                        EvLog ("Detected canonical peer at " +:+ a);
                        EvDbSavePeer a]
                       (handleDiscoverPeers rest
                          (with_dbSavedPeers (λ ps, {[a]} ∪ ps)
                             (register (mkConn cn a 0 (make 5) (make 5)) w1)))
           end
       end.
Proof.
  cbn [handleDiscoverPeers]. unfold_ops. run_M.
  destruct (hasAddress w _).
  { name_outcome (handleDiscoverPeers rest w). reflexivity. }
  cbn. destruct (set_has _ _ _).
  { name_outcome (handleDiscoverPeers rest (with_clockReads S w)). reflexivity. }
  cbn. destruct (netResolveTCPAddr w _) as [addr|e]; [|reflexivity].
  cbn. destruct (netDialTCP w addr) as [cn|e]; [|reflexivity].
  unfold prepend, register; cbn.
  match goal with |- context [handleDiscoverPeers rest ?x] =>
    name_outcome (handleDiscoverPeers rest x) end. reflexivity.
Qed.

Lemma with_heap_id w : with_heap (λ h, h) w = w.
Proof. by destruct w. Qed.

Lemma forEach_send_prefix v l : ∀ w,
  let r := forEach l (λ p, send_chanToPeer p v) w in
  ∃ l1 l2,
    l = l1 ++ l2
    ∧ after r = with_heap (sendAll v l1) w
    ∧ calls r = (λ p, EvSend p v) <$> l1
    ∧ ((value r = Some tt ∧ l2 = [])
       ∨ (value r = None
          ∧ ∃ p l2', l2 = p :: l2'
                     ∧ blocked_at (with_heap (sendAll v l1) w) p = true)).
Proof.
  induction l as [|p l IH]; intros w.
  - exists [], []. split; [reflexivity|].
    split; [exact (eq_sym (with_heap_id w))|]. split; [reflexivity|]. by left.
  - cbn [forEach]. unfold mbind, M_bind. rewrite send_chanToPeer_run.
    destruct (blocked_at w p) eqn:Hb.
    + exists [], (p :: l). split; [reflexivity|].
      split; [exact (eq_sym (with_heap_id w))|]. split; [reflexivity|].
      right. split; [reflexivity|]. exists p, l. split; [reflexivity|].
      exact Hb.
    + destruct (IH (with_heap (alter (enqueue v) p) w))
        as (l1 & l2 & -> & Ha & Hc & Hv).
      destruct (forEach (l1 ++ l2) _ _) as [[u w'] evs].
      unfold after, calls, value in *. cbn [fst snd] in *. subst w' evs.
      exists (p :: l1), l2. repeat split. exact Hv.
Qed.

Lemma lookup_sendAll_other v l : ∀ h q,
  q ∉ l -> sendAll v l h !! q = h !! q.
Proof.
  unfold sendAll. induction l as [|p l IH]; intros h q Hq; [reflexivity|].
  cbn. rewrite IH by (intros ?; apply Hq, elem_of_cons; auto).
  apply list_lookup_alter_ne. intros ->. apply Hq, elem_of_cons. auto.
Qed.

Lemma blocked_at_sendAll v l w q :
  q ∉ l -> blocked_at (with_heap (sendAll v l) w) q = blocked_at w q.
Proof.
  intros Hq. unfold blocked_at. cbn. by rewrite lookup_sendAll_other.
Qed.

Lemma blocked_at_alter v p w q :
  q ≠ p -> blocked_at (with_heap (alter (enqueue v) p) w) q = blocked_at w q.
Proof.
  intros Hq. unfold blocked_at. cbn. by rewrite list_lookup_alter_ne.
Qed.

Lemma forEach_send_value v l : ∀ w,
  NoDup l ->
  value (forEach l (λ p, send_chanToPeer p v) w) = Some tt <->
  ∀ p, p ∈ l -> blocked_at w p = false.
Proof.
  induction l as [|p l IH]; intros w Hnd.
  - split; [intros _ q Hq; by apply elem_of_nil in Hq|reflexivity].
  - apply NoDup_cons in Hnd as [Hp Hnd].
    cbn [forEach]. unfold mbind, M_bind. rewrite send_chanToPeer_run.
    destruct (blocked_at w p) eqn:Hb.
    + split; [discriminate|]. intros Hall.
      rewrite Hall in Hb by (apply elem_of_cons; auto). discriminate Hb.
    + specialize (IH (with_heap (alter (enqueue v) p) w) Hnd).
      destruct (forEach l _ _) as [[u w'] evs].
      unfold value in *. cbn [fst] in *. rewrite IH. split.
      * intros Hall q [->|Hq]%elem_of_cons; [exact Hb|].
        rewrite <- (blocked_at_alter v p w q) by (intros ->; contradiction).
        by apply Hall.
      * intros Hall q Hq.
        rewrite blocked_at_alter by (intros ->; contradiction).
        apply Hall, elem_of_cons. auto.
Qed.

Lemma floodPeersWithNewBlocks_run minHeight maxHeight w :
  floodPeersWithNewBlocks minHeight maxHeight w =
  let msg := IBlockHashes
               (mkBlockHashes
                  (mkHeader p2pEphemeralID GenesisBlockHash p2pMsgBlockHashes)
                  (dbBlockHash w <$> seqZ (minHeight + 1) (maxHeight - minHeight))) in
  forEach (elements (peers w)) (λ p2pc, send_chanToPeer p2pc msg) w.
Proof.
  unfold floodPeersWithNewBlocks, dbGetHeightHashes.
  unfold mbind, M_bind, gets. cbn zeta.
  destruct (forEach _ _ w) as [[u w'] evs]. reflexivity.
Qed.

Lemma sends_of_sends v l :
  sends ((λ p, EvSend p v) <$> l) = (λ p, (p, v)) <$> l.
Proof. induction l as [|p l IH]; cbn; [reflexivity|]. by rewrite IH. Qed.

Lemma sends_app l1 l2 : sends (l1 ++ l2) = sends l1 ++ sends l2.
Proof.
  induction l1 as [|e l1 IH]; [reflexivity|].
  destruct e; cbn; rewrite ?IH; reflexivity.
Qed.

Lemma lookup_sendAll v l : ∀ h q,
  NoDup l ->
  sendAll v l h !! q = if decide (q ∈ l) then enqueue v <$> h !! q else h !! q.
Proof.
  unfold sendAll. induction l as [|p l IH]; intros h q Hnd; cbn.
  - case_decide as Hin; [by apply elem_of_nil in Hin|reflexivity].
  - apply NoDup_cons in Hnd as [Hp Hnd]. rewrite (IH _ _ Hnd).
    destruct (decide (q = p)) as [->|Hne].
    + rewrite list_lookup_alter_eq.
      rewrite (decide_False (P := p ∈ l)) by assumption.
      rewrite (decide_True (P := p ∈ p :: l)) by (apply elem_of_cons; auto).
      reflexivity.
    + rewrite list_lookup_alter_ne by congruence.
      destruct (decide (q ∈ l)) as [Hin|Hin].
      * rewrite (decide_True (P := q ∈ p :: l)) by (apply elem_of_cons; auto).
        reflexivity.
      * rewrite (decide_False (P := q ∈ p :: l)); [reflexivity|].
        intros [?|?]%elem_of_cons; congruence.
Qed.

(** ** What the loops leave alone *)

Lemma connectEach_frame saved : ∀ w,
  let r := connectEach saved w in
  co (after r) = co w
  ∧ sends (calls r) = []
  ∧ ∃ new, heap (after r) = heap w ++ new.
Proof.
  induction saved as [|peer rest IH]; intros w.
  - cbn. repeat split. exists []. by rewrite app_nil_r.
  - rewrite connectEach_cons. cbn zeta.
    destruct (hasAddress w peer); [apply IH|].
    destruct (set_has _ _ peer).
    { destruct (IH (with_clockReads S w)) as (Hco & Hs & new & Hh).
      cbn. repeat split; [exact Hco|exact Hs|exists new; exact Hh]. }
    destruct (netDial w peer) as [cn|e].
    + match goal with |- context [connectEach rest ?x] =>
        destruct (IH x) as (Hco & Hs & new & Hh) end.
      cbn. repeat split; [exact Hco|exact Hs|].
      unfold after in *. rewrite Hh. cbn. rewrite <- app_assoc. eauto.
    + destruct (IH (with_clockReads S w)) as (Hco & Hs & new & Hh).
      cbn. repeat split; [exact Hco|exact Hs|exists new; exact Hh].
Qed.

Lemma connectDbPeers_run w :
  connectDbPeers w =
  prepend [EvDbGetSavedPeers] (connectEach (elements (dbSavedPeers w)) w).
Proof.
  unfold connectDbPeers. unfold_ops. run_M.
  name_outcome (connectEach (elements (dbSavedPeers w)) w). reflexivity.
Qed.

Lemma connectDbPeers_frame w :
  let r := connectDbPeers w in
  co (after r) = co w
  ∧ sends (calls r) = []
  ∧ ∃ new, heap (after r) = heap w ++ new.
Proof.
  rewrite connectDbPeers_run.
  apply (connectEach_frame (elements (dbSavedPeers w)) w).
Qed.

Lemma handleDiscoverPeers_co addresses : ∀ w,
  co (after (handleDiscoverPeers addresses w)) = co w.
Proof.
  induction addresses as [|address rest IH]; intros w; [reflexivity|].
  rewrite handleDiscoverPeers_cons. cbn zeta.
  destruct (hasAddress w _); [apply IH|].
  destruct (set_has _ _ _); [apply (IH (with_clockReads S w))|].
  destruct (netResolveTCPAddr w _) as [addr|e]; [|reflexivity].
  destruct (netDialTCP w addr) as [cn|e]; [|reflexivity].
  match goal with |- context [handleDiscoverPeers rest ?x] =>
    apply (IH x) end.
Qed.

(** ** The time tick *)

Lemma connectEach_value saved : ∀ w, value (connectEach saved w) = Some tt.
Proof.
  induction saved as [|peer rest IH]; intros w; [reflexivity|].
  rewrite connectEach_cons. cbn zeta.
  destruct (hasAddress w peer); [apply IH|].
  destruct (set_has _ _ peer); [apply IH|].
  destruct (netDial w peer); apply IH.
Qed.

Lemma connectDbPeers_value w : value (connectDbPeers w) = Some tt.
Proof. rewrite connectDbPeers_run. apply connectEach_value. Qed.

Lemma handleDiscoverPeers_value addresses : ∀ w,
  value (handleDiscoverPeers addresses w) = Some tt.
Proof.
  induction addresses as [|address rest IH]; intros w; [reflexivity|].
  rewrite handleDiscoverPeers_cons. cbn zeta.
  destruct (hasAddress w _); [apply IH|].
  destruct (set_has _ _ _); [apply IH|].
  destruct (netResolveTCPAddr w _) as [addr|e]; [|reflexivity].
  destruct (netDialTCP w addr); [apply IH|reflexivity].
Qed.

Lemma with_co_same w :
  with_co (set_lastTickBlockchainHeight (lastTickBlockchainHeight (co w))) w = w.
Proof. destruct w as [c ? ? ? ? ? ? ? ? ? ?]. by destruct c. Qed.

Lemma world_same w :
  with_co (set_lastTickBlockchainHeight (lastTickBlockchainHeight (co w)))
          (with_heap (λ h, h) w) = w.
Proof. destruct w as [c ? ? ? ? ? ? ? ? ? ?]. by destruct c. Qed.

Lemma tickReconnect_run w1 :
  tickReconnect w1 =
  let elapsed := GoTime.Sub (clock w1 (clockReads w1)) (lastReconnectTime (co w1)) in
  if elapsed >=? 10 * GoTime.Minute then
    connectDbPeers
      (with_co (set_lastReconnectTime (clock w1 (S (clockReads w1))))
         (with_clockReads (λ n, S (S n)) w1))
  else (Some tt, with_clockReads S w1, []).
Proof.
  unfold tickReconnect, timeSince, timeNow.
  unfold mbind, M_bind, mret, M_ret, gets, modify. cbn zeta.
  destruct (GoTime.Sub _ _ >=? _); [|reflexivity].
  cbn. destruct (connectDbPeers _) as [[u w'] evs]. reflexivity.
Qed.

Lemma handleTimeTick_run w :
  handleTimeTick w =
  let r1 := tickFlood w in
  match value r1 with
  | Some _ => prepend (calls r1) (tickReconnect (after r1))
  | None => (None, after r1, calls r1)
  end.
Proof.
  unfold handleTimeTick, tickFlood.
  change (lastReconnect ← gets (λ w0, lastReconnectTime (co w0));
          elapsed ← timeSince lastReconnect;
          if elapsed >=? 10 * GoTime.Minute
          then now ← timeNow;
               modify (with_co (set_lastReconnectTime now));; connectDbPeers
          else mret ()) with tickReconnect.
  unfold dbGetBlockchainHeight.
  unfold mbind, M_bind, mret, M_ret, gets, modify. cbn zeta.
  destruct (dbBlockchainHeight w >? lastTickBlockchainHeight (co w)).
  - destruct (floodPeersWithNewBlocks _ _ w) as [[[u|] w'] evs]; cbn;
      [|reflexivity].
    destruct (tickReconnect _) as [[u' w''] evs']. cbn.
    by rewrite !app_nil_r.
  - cbn. destruct (tickReconnect w) as [[u' w''] evs']. reflexivity.
Qed.

Lemma tickFlood_summary w :
  let r := tickFlood w in
  let lastHeight := lastTickBlockchainHeight (co w) in
  let newHeight := dbBlockchainHeight w in
  let grown := newHeight >? lastHeight in
  let msg := IBlockHashes
               (mkBlockHashes
                  (mkHeader p2pEphemeralID GenesisBlockHash p2pMsgBlockHashes)
                  (dbBlockHash w <$> seqZ (lastHeight + 1) (newHeight - lastHeight))) in
  ∃ l1 l2 h,
    elements (peers w) = l1 ++ l2
    ∧ after r = with_co (set_lastTickBlockchainHeight h)
                        (with_heap (sendAll msg l1) w)
    ∧ calls r = (λ p, EvSend p msg) <$> l1
    ∧ ((value r = Some tt
        ∧ h = (if grown then newHeight else lastHeight)
        ∧ (if grown then (l2 = []) else (l1 = [])))
       ∨ (value r = None
          ∧ grown = true
          ∧ h = lastHeight
          ∧ ∃ p l2', l2 = p :: l2'
                     ∧ blocked_at (with_heap (sendAll msg l1) w) p = true)).
Proof.
  cbn zeta. set (msg := IBlockHashes _).
  unfold tickFlood, dbGetBlockchainHeight.
  unfold mbind, M_bind, mret, M_ret, gets, modify. cbn zeta.
  destruct (dbBlockchainHeight w >? lastTickBlockchainHeight (co w)).
  - rewrite floodPeersWithNewBlocks_run. cbn zeta. fold msg.
    destruct (forEach_send_prefix msg (elements (peers w)) w)
      as (l1 & l2 & He & Ha & Hc & Hv).
    destruct (forEach _ _ w) as [[u w'] evs].
    unfold after, calls, value in *. cbn [fst snd] in *. subst w' evs.
    destruct Hv as [[-> ->]|(-> & p & l2' & -> & Hb)]; cbn.
    + exists l1, [], (dbBlockchainHeight w).
      split; [exact He|]. split; [reflexivity|].
      split; [by rewrite app_nil_r|]. left. repeat split.
    + exists l1, (p :: l2'), (lastTickBlockchainHeight (co w)).
      split; [exact He|].
      split; [exact (eq_sym (with_co_same (with_heap (sendAll msg l1) w)))|].
      split; [reflexivity|]. right. repeat split. eauto.
  - exists [], (elements (peers w)), (lastTickBlockchainHeight (co w)).
    split; [reflexivity|]. split; [exact (eq_sym (world_same w))|].
    split; [reflexivity|]. left. repeat split.
Qed.

(** The flood message of a tick that sees the height [newHeight] after
    [lastHeight]. *)
Lemma handleTimeTick_summary w :
  let r := handleTimeTick w in
  let lastHeight := lastTickBlockchainHeight (co w) in
  let newHeight := dbBlockchainHeight w in
  let grown := newHeight >? lastHeight in
  let msg := IBlockHashes
               (mkBlockHashes
                  (mkHeader p2pEphemeralID GenesisBlockHash p2pMsgBlockHashes)
                  (dbBlockHash w <$> seqZ (lastHeight + 1) (newHeight - lastHeight))) in
  let due := GoTime.Sub (clock w (clockReads w)) (lastReconnectTime (co w))
             >=? 10 * GoTime.Minute in
  ∃ l1 l2 new,
    elements (peers w) = l1 ++ l2
    ∧ sends (calls r) = (λ p, (p, msg)) <$> l1
    ∧ heap (after r) = sendAll msg l1 (heap w) ++ new
    ∧ ((value r = Some tt
        ∧ lastTickBlockchainHeight (co (after r)) =
            (if grown then newHeight else lastHeight)
        ∧ (if grown then (l2 = []) else (l1 = []))
        ∧ lastReconnectTime (co (after r)) =
            (if due then clock w (S (clockReads w))
             else lastReconnectTime (co w))
        ∧ (EvDbGetSavedPeers ∈ calls r ↔ due = true))
       ∨ (value r = None
          ∧ grown = true
          ∧ lastTickBlockchainHeight (co (after r)) = lastHeight
          ∧ lastReconnectTime (co (after r)) = lastReconnectTime (co w)
          ∧ (EvDbGetSavedPeers ∉ calls r)
          ∧ new = []
          ∧ ∃ p l2', l2 = p :: l2'
                     ∧ blocked_at (with_heap (sendAll msg l1) w) p = true)).
Proof.
  cbn zeta. rewrite handleTimeTick_run. cbn zeta.
  destruct (tickFlood_summary w) as (l1 & l2 & h & He & Ha & Hc & Hv).
  cbn zeta in *. set (msg := IBlockHashes _) in *.
  assert (Hnot : ∀ l : list nat, EvDbGetSavedPeers ∉ (λ p, EvSend p msg) <$> l).
  { intros l [p [Hp _]]%list_elem_of_fmap. discriminate Hp. }
  destruct (tickFlood w) as [[u w1] evs1].
  unfold after, calls, value in Ha, Hc, Hv. cbn [fst snd] in Ha, Hc, Hv.
  subst w1 evs1. exists l1, l2.
  destruct Hv as [(-> & -> & Hl)|(-> & Hg & -> & Hblk)].
  - cbn [value after calls fst snd]. rewrite tickReconnect_run. cbn.
    set (due := GoTime.Sub _ _ >=? _). destruct due.
    + match goal with |- context [connectDbPeers ?x] =>
        destruct (connectDbPeers_frame x) as (Hco & Hs & new & Hh);
        pose proof (connectDbPeers_run x) as Hrun;
        pose proof (connectDbPeers_value x) as Hval
      end.
      exists new. unfold prepend, after, calls, value in *. cbn [fst snd] in *.
      rewrite Hco, sends_app, Hs, app_nil_r, Hh, sends_of_sends.
      split; [exact He|]. split; [reflexivity|]. split; [reflexivity|].
      left. split; [exact Hval|]. split; [reflexivity|]. split; [exact Hl|].
      split; [reflexivity|]. split; [intros _; reflexivity|].
      intros _. rewrite Hrun. cbn. apply elem_of_app. right.
      apply elem_of_cons. by left.
    + exists []. cbn. rewrite ?app_nil_r, sends_of_sends.
      split; [exact He|]. split; [reflexivity|]. split; [reflexivity|].
      left. split; [reflexivity|]. split; [reflexivity|]. split; [exact Hl|].
      split; [reflexivity|]. split; [|discriminate].
      intros H. by apply Hnot in H.
  - exists []. cbn. rewrite app_nil_r, sends_of_sends.
    split; [exact He|]. split; [reflexivity|]. split; [reflexivity|].
    right. split; [reflexivity|]. split; [exact Hg|]. split; [reflexivity|].
    split; [reflexivity|]. split; [apply Hnot|]. split; [reflexivity|exact Hblk].
Qed.

Lemma tickReconnect_value w1 : value (tickReconnect w1) = Some tt.
Proof.
  rewrite tickReconnect_run. cbn zeta.
  destruct (GoTime.Sub _ _ >=? _); [apply connectDbPeers_value|reflexivity].
Qed.

Lemma handleTimeTick_value w :
  value (handleTimeTick w) = Some tt <->
  (dbBlockchainHeight w >? lastTickBlockchainHeight (co w)) = false
  ∨ ∀ p, p ∈ peers w -> blocked_at w p = false.
Proof.
  rewrite handleTimeTick_run. cbn zeta.
  assert (Hflood : value (tickFlood w) = Some tt <->
    ((dbBlockchainHeight w >? lastTickBlockchainHeight (co w)) = false
     ∨ ∀ p, p ∈ peers w -> blocked_at w p = false)).
  { unfold tickFlood, dbGetBlockchainHeight.
    unfold mbind, M_bind, mret, M_ret, gets, modify. cbn zeta.
    destruct (dbBlockchainHeight w >? lastTickBlockchainHeight (co w)).
    - rewrite floodPeersWithNewBlocks_run. cbn zeta.
      match goal with |- context [forEach ?l (λ p, send_chanToPeer p ?v) w] =>
        pose proof (forEach_send_value v l w (NoDup_elements _)) as Hv;
        destruct (forEach l (λ p, send_chanToPeer p v) w) as [[[u|] w'] evs]
      end; unfold value in *; cbn [fst] in *.
      + split; [intros _; right|reflexivity].
        intros p Hp. apply Hv; [by destruct u|]. by apply elem_of_elements.
      + split; [discriminate|]. intros [H|H]; [discriminate H|].
        apply Hv. intros p Hp. apply H. by apply elem_of_elements.
    - cbn. split; [by left|reflexivity]. }
  rewrite <- Hflood.
  destruct (tickFlood w) as [[[[]|] w1] evs1]; cbn.
  - unfold prepend, value. cbn.
    pose proof (tickReconnect_value w1) as H. unfold value in H.
    rewrite H. split; reflexivity.
  - split; intros H; exact H.
Qed.

Lemma room_unblocked w :
  (∀ p c, p ∈ peers w -> heap w !! p = Some c -> has_room (chanToPeer c) = true) ->
  ∀ p, p ∈ peers w -> blocked_at w p = false.
Proof.
  intros Hroom p Hp. unfold blocked_at.
  destruct (heap w !! p) as [c|] eqn:Hc; [|reflexivity].
  by rewrite (Hroom p c Hp Hc).
Qed.

(** C3. On a tick that finds the persisted height [newHeight] above
    [lastTickBlockchainHeight], if the outbound queue of every registered
    connection has room, one message is sent to each connection registered
    at that moment, each exactly once and at the end of its queue; it
    carries the hashes of the heights above the old value up to and
    including [newHeight], in order; the field is [newHeight] afterwards and
    the handler returns. On a tick that finds no growth nothing is sent. If
    the queue of a registered connection is full, the handler stands at a
    send and the field has kept its value. *)
Theorem handleTimeTick_floods_on_growth w :
  let r := handleTimeTick w in
  let lastHeight := lastTickBlockchainHeight (co w) in
  let newHeight := dbBlockchainHeight w in
  (lastHeight < newHeight ->
   (∀ p c, p ∈ peers w -> heap w !! p = Some c ->
      has_room (chanToPeer c) = true) ->
   ∃ hashes,
     let msg := IBlockHashes
                  (mkBlockHashes
                     (mkHeader p2pEphemeralID GenesisBlockHash p2pMsgBlockHashes)
                     hashes) in
     length hashes = Z.to_nat (newHeight - lastHeight)
     ∧ (∀ i : nat, (i < length hashes)%nat ->
          hashes !! i = Some (dbBlockHash w (lastHeight + 1 + Z.of_nat i)))
     ∧ value r = Some tt
     ∧ sends (calls r) = (λ p, (p, msg)) <$> elements (peers w)
     ∧ NoDup (elements (peers w))
     ∧ (∀ p, p ∈ peers w -> (p, msg) ∈ sends (calls r))
     ∧ (∀ p c, p ∈ peers w -> heap w !! p = Some c ->
          heap (after r) !! p = Some (enqueue msg c)
          ∧ sent (chanToPeer (enqueue msg c)) = sent (chanToPeer c) ++ [msg])
     ∧ lastTickBlockchainHeight (co (after r)) = newHeight)
  ∧ (newHeight <= lastHeight -> sends (calls r) = [])
  ∧ (lastHeight < newHeight ->
     (∃ p c, p ∈ peers w ∧ heap w !! p = Some c
             ∧ has_room (chanToPeer c) = false) ->
     value r = None
     ∧ lastTickBlockchainHeight (co (after r)) = lastHeight).
Proof.
  destruct (handleTimeTick_summary w) as (l1 & l2 & new & He & Hsends & Hheap & Hv).
  pose proof (handleTimeTick_value w) as Hval.
  cbn zeta in *. split; [|split].
  - intros Hgrow Hroom.
    assert (Hg : (dbBlockchainHeight w >? lastTickBlockchainHeight (co w)) = true)
      by (apply Z.gtb_lt; lia).
    assert (Hdone : value (handleTimeTick w) = Some tt)
      by (apply Hval; right; by apply room_unblocked).
    destruct Hv as [(_ & Hlast & Hl & _)|(Hnone & _)]; [|congruence].
    rewrite Hg in Hlast, Hl. subst l2. rewrite app_nil_r in He. subst l1.
    eexists. split; [|split; [|split; [exact Hdone|split; [exact Hsends|]]]].
    + rewrite length_fmap, length_seqZ. reflexivity.
    + intros i Hi. rewrite length_fmap, length_seqZ in Hi.
      rewrite list_lookup_fmap, lookup_seqZ_lt by lia. reflexivity.
    + split; [apply NoDup_elements|]. split; [|split; [|exact Hlast]].
      * intros p Hp. rewrite Hsends. apply list_elem_of_fmap.
        exists p. split; [reflexivity|]. by apply elem_of_elements.
      * intros p c Hp Hc. split; [|apply sent_enqueue].
        rewrite Hheap. apply lookup_app_l_Some.
        rewrite lookup_sendAll by apply NoDup_elements.
        rewrite decide_True by (by apply elem_of_elements).
        rewrite Hc. reflexivity.
  - intros Hle.
    assert (Hg : (dbBlockchainHeight w >? lastTickBlockchainHeight (co w)) = false)
      by (rewrite Z.gtb_ltb; apply Z.ltb_ge; lia).
    destruct Hv as [(_ & _ & Hl & _)|(_ & Hgrown & _)]; [|congruence].
    rewrite Hg in Hl. subst l1. exact Hsends.
  - intros Hgrow (p & c & Hp & Hc & Hfull).
    assert (Hg : (dbBlockchainHeight w >? lastTickBlockchainHeight (co w)) = true)
      by (apply Z.gtb_lt; lia).
    destruct Hv as [(Hdone & _)|(Hnone & _ & Hlast & _)];
      [|split; [exact Hnone|exact Hlast]].
    apply Hval in Hdone as [Hno|Hall]; [congruence|].
    specialize (Hall p Hp). rewrite (blocked_at_room w p c Hc), Hfull in Hall.
    discriminate Hall.
Qed.

(** C9. On a tick that finds the persisted height at or below
    [lastTickBlockchainHeight], also when it has fallen below it, nothing is
    sent, every outbound queue is as it was, and the field keeps its
    value. *)
Theorem handleTimeTick_no_growth w :
  dbBlockchainHeight w <= lastTickBlockchainHeight (co w) ->
  let r := handleTimeTick w in
  sends (calls r) = []
  ∧ (∀ p c, heap w !! p = Some c -> heap (after r) !! p = Some c)
  ∧ lastTickBlockchainHeight (co (after r)) = lastTickBlockchainHeight (co w).
Proof.
  intros Hle.
  destruct (handleTimeTick_summary w) as (l1 & l2 & new & He & Hsends & Hheap & Hv).
  cbn zeta in *.
  assert (Hg : (dbBlockchainHeight w >? lastTickBlockchainHeight (co w)) = false)
    by (rewrite Z.gtb_ltb; apply Z.ltb_ge; lia).
  destruct Hv as [(_ & Hlast & Hl & _)|(_ & Hgrown & _)]; [|congruence].
  rewrite Hg in Hlast, Hl. subst l1.
  split; [exact Hsends|]. split; [|exact Hlast].
  intros p c Hc. rewrite Hheap. by apply lookup_app_l_Some.
Qed.

(** C5. On a tick the saved peers are read (reconciliation runs) only when
    the time elapsed since [lastReconnectTime] is at least ten minutes, and
    whenever it runs [lastReconnectTime] has become the reading of the clock
    taken for it, however the network answers the dials. A tick that returns
    runs it exactly when that much time has elapsed; when less has elapsed,
    and in a tick that stands at a send of the flood, the field keeps its
    value. *)
Theorem reconciliation_cadence w :
  let r := handleTimeTick w in
  let elapsed := GoTime.Sub (clock w (clockReads w)) (lastReconnectTime (co w)) in
  (EvDbGetSavedPeers ∈ calls r ->
     10 * GoTime.Minute <= elapsed
     ∧ lastReconnectTime (co (after r)) = clock w (S (clockReads w)))
  ∧ (value r = Some tt ->
     (EvDbGetSavedPeers ∈ calls r <-> 10 * GoTime.Minute <= elapsed)
     ∧ (10 * GoTime.Minute <= elapsed ->
        lastReconnectTime (co (after r)) = clock w (S (clockReads w))))
  ∧ (elapsed < 10 * GoTime.Minute ->
     lastReconnectTime (co (after r)) = lastReconnectTime (co w))
  ∧ (value r = None ->
     (EvDbGetSavedPeers ∉ calls r)
     ∧ lastReconnectTime (co (after r)) = lastReconnectTime (co w)).
Proof.
  destruct (handleTimeTick_summary w) as (l1 & l2 & new & _ & _ & _ & Hv).
  cbn zeta in *.
  destruct (GoTime.Sub _ _ >=? 10 * GoTime.Minute) eqn:Hdue.
  - apply Z.geb_le in Hdue.
    destruct Hv as [(Hdone & _ & _ & Htime & Hruns)|(Hnone & _ & _ & Htime & Hnot & _)].
    + split; [intros _; by split|]. split; [intros _; split; [|by intros _]|].
      { rewrite Hruns. split; auto. }
      split; [lia|]. congruence.
    + split; [intros H; by destruct (Hnot H)|]. split; [congruence|].
      split; [lia|]. intros _. by split.
  - assert (Hlt : GoTime.Sub (clock w (clockReads w)) (lastReconnectTime (co w))
                  < 10 * GoTime.Minute).
    { destruct (Z.lt_ge_cases (GoTime.Sub (clock w (clockReads w))
                                (lastReconnectTime (co w))) (10 * GoTime.Minute))
        as [?|Hge]; [assumption|].
      apply Z.geb_le in Hge. congruence. }
    destruct Hv as [(Hdone & _ & _ & Htime & Hruns)|(Hnone & _ & _ & Htime & Hnot & _)].
    + split; [intros H; apply Hruns in H; discriminate H|].
      split; [intros _; split; [|lia]|].
      { rewrite Hruns. split; [discriminate|lia]. }
      split; [by intros _|]. congruence.
    + split; [intros H; by destruct (Hnot H)|]. split; [congruence|].
      split; [by intros _|]. intros _. by split.
Qed.

(** ** The run loop *)

Lemma runLoop_cons r rs w :
  runLoop (r :: rs) w =
  match value (turn r w) with
  | Some _ => prepend (calls (turn r w)) (runLoop rs (after (turn r w)))
  | None => (None, after (turn r w), calls (turn r w))
  end.
Proof.
  cbn [runLoop]. unfold mbind, M_bind.
  destruct (turn r w) as [[[u|] w1] evs1]; cbn; [|reflexivity].
  destruct (runLoop rs w1) as [[u' w2] evs2]. reflexivity.
Qed.

Lemma runLoop_nil w : runLoop [] w = (Some tt, w, []).
Proof. reflexivity. Qed.

Lemma Run_after rs w :
  after (Run rs w) =
  after (runLoop rs
           (with_co (set_lastTickBlockchainHeight (dbBlockchainHeight w)) w)).
Proof.
  unfold Run, dbGetBlockchainHeight. run_M.
  match goal with |- context [runLoop rs ?x] =>
    destruct (runLoop rs x) as [[u w1] evs] end.
  reflexivity.
Qed.

Lemma turn_other_lastTick r w :
  r ≠ FromTimeTicks ->
  lastTickBlockchainHeight (co (after (turn r w))) =
  lastTickBlockchainHeight (co w).
Proof.
  intros Hr. destruct r as [[p|addresses|]| |f]; cbn [turn].
  - rewrite handleSearchForBlocks_run. cbn zeta.
    destruct (blocked_at w p); reflexivity.
  - rewrite handleDiscoverPeers_co. reflexivity.
  - reflexivity.
  - congruence.
  - reflexivity.
Qed.

Lemma handleTimeTick_lastTick w :
  lastTickBlockchainHeight (co w) <=
  lastTickBlockchainHeight (co (after (handleTimeTick w))).
Proof.
  destruct (handleTimeTick_summary w) as (l1 & l2 & new & _ & _ & _ & Hv).
  cbn zeta in Hv.
  destruct Hv as [(_ & Hlast & _)|(_ & _ & Hlast & _)]; rewrite Hlast; [|lia].
  destruct (dbBlockchainHeight w >? lastTickBlockchainHeight (co w)) eqn:Hg;
    [apply Z.gtb_lt in Hg|]; lia.
Qed.

Lemma turn_lastTick r w :
  lastTickBlockchainHeight (co w) <=
  lastTickBlockchainHeight (co (after (turn r w))).
Proof.
  destruct r as [msg| |f]; [|apply handleTimeTick_lastTick|];
    rewrite turn_other_lastTick by discriminate; lia.
Qed.

Lemma runLoop_lastTick rs : ∀ w,
  lastTickBlockchainHeight (co w) <=
  lastTickBlockchainHeight (co (after (runLoop rs w))).
Proof.
  induction rs as [|r rs IH]; intros w; [cbn; lia|].
  rewrite runLoop_cons. pose proof (turn_lastTick r w) as Hturn.
  destruct (value (turn r w)); [|exact Hturn].
  etransitivity; [exact Hturn|apply IH].
Qed.

Lemma runLoop_app_lastTick rs1 rs2 : ∀ w,
  lastTickBlockchainHeight (co (after (runLoop rs1 w))) <=
  lastTickBlockchainHeight (co (after (runLoop (rs1 ++ rs2) w))).
Proof.
  induction rs1 as [|r rs1 IH]; intros w; [apply runLoop_lastTick|].
  rewrite <- app_comm_cons, !runLoop_cons.
  destruct (value (turn r w)); [apply IH|reflexivity].
Qed.

(** C4. [lastTickBlockchainHeight] is written by the start of [Run], which
    sets it to the persisted height, and by the tick handler; no other turn
    of the loop changes it; and it never decreases: after any further turns
    its value is at least what it was, so the value after a later tick is at
    least the value after an earlier one. *)
Theorem lastTickBlockchainHeight_monotone :
  (∀ w, lastTickBlockchainHeight (co (after (Run [] w))) = dbBlockchainHeight w)
  ∧ (∀ r w, r ≠ FromTimeTicks ->
       lastTickBlockchainHeight (co (after (turn r w))) =
       lastTickBlockchainHeight (co w))
  ∧ (∀ w, lastTickBlockchainHeight (co w) <=
          lastTickBlockchainHeight (co (after (handleTimeTick w))))
  ∧ (∀ earlier later w,
       lastTickBlockchainHeight (co (after (Run (earlier ++ [FromTimeTicks]) w))) <=
       lastTickBlockchainHeight
         (co (after (Run ((earlier ++ [FromTimeTicks]) ++ later ++ [FromTimeTicks]) w))))
  ∧ (∀ rs1 rs2 w,
       lastTickBlockchainHeight (co (after (Run rs1 w))) <=
       lastTickBlockchainHeight (co (after (Run (rs1 ++ rs2) w)))).
Proof.
  assert (Hmono : ∀ rs1 rs2 w,
    lastTickBlockchainHeight (co (after (Run rs1 w))) <=
    lastTickBlockchainHeight (co (after (Run (rs1 ++ rs2) w)))).
  { intros rs1 rs2 w. rewrite !Run_after. apply runLoop_app_lastTick. }
  split; [|split; [|split; [|split]]].
  - intros w. rewrite Run_after. reflexivity.
  - apply turn_other_lastTick.
  - apply handleTimeTick_lastTick.
  - intros earlier later w. apply Hmono.
  - exact Hmono.
Qed.

(** ** Every call to the network is guarded *)

Lemma dial_guard_extend e before more :
  dial_guard e before -> dial_guard e (more ++ before).
Proof.
  destruct e; cbn; try tauto.
  - intros [earlier ->]. exists (more ++ earlier). by rewrite app_assoc.
  - intros (earlier & a & ->). exists (more ++ earlier), a. by rewrite app_assoc.
  - intros [earlier ->]. exists (more ++ earlier). by rewrite app_assoc.
Qed.

Lemma dials_guarded_nil : dials_guarded [].
Proof. intros [|x before] ev rest Heq; discriminate Heq. Qed.

Lemma dials_guarded_app l1 l2 :
  dials_guarded l1 -> dials_guarded l2 -> dials_guarded (l1 ++ l2).
Proof.
  intros H1 H2 before e rest Heq.
  apply app_eq_app in Heq as [m [[-> Hm]|[-> Hm]]].
  - destruct m as [|e' m]; cbn in Hm.
    + rewrite <- (app_nil_r before).
      apply dial_guard_extend, (H2 [] e rest). by rewrite Hm.
    + injection Hm as <- ->. by apply (H1 before e m).
  - apply dial_guard_extend, (H2 m e rest Hm).
Qed.

Lemma guarded_registered a : dials_guarded [EvHasAddress a true].
Proof. guard_block. Qed.

Lemma guarded_quarantined a :
  dials_guarded [EvHasAddress a false; EvBadPeersHas a true].
Proof. guard_block. Qed.

Lemma guarded_resolve a r :
  dials_guarded [EvHasAddress a false; EvBadPeersHas a false;
                 EvResolveTCPAddr a r].
Proof. guard_block. Qed.

Lemma guarded_dialTCP a addr r :
  dials_guarded [EvHasAddress a false; EvBadPeersHas a false;
                 EvResolveTCPAddr a (Ok addr); EvDialTCP addr r].
Proof. guard_block. Qed.

Lemma guarded_detected a addr cn p line :
  dials_guarded [EvHasAddress a false; EvBadPeersHas a false;
                 EvResolveTCPAddr a (Ok addr); EvDialTCP addr (Ok cn);
                 EvAdd p; EvGoHandleConnection p; EvLog line; EvDbSavePeer a].
Proof. guard_block. Qed.

Lemma guarded_dial_failed a e line :
  dials_guarded [EvHasAddress a false; EvBadPeersHas a false;
                 EvDial a (Err e); EvLog line].
Proof. guard_block. Qed.

Lemma guarded_dial_connected a cn p :
  dials_guarded [EvHasAddress a false; EvBadPeersHas a false;
                 EvDial a (Ok cn); EvAdd p; EvGoHandleConnection p].
Proof. guard_block. Qed.

Lemma guarded_saved_peers : dials_guarded [EvDbGetSavedPeers].
Proof. guard_block. Qed.

Lemma handleDiscoverPeers_guarded addresses : ∀ w,
  dials_guarded (calls (handleDiscoverPeers addresses w)).
Proof.
  induction addresses as [|address rest IH]; intros w;
    [apply dials_guarded_nil|].
  rewrite handleDiscoverPeers_cons. cbn zeta.
  destruct (hasAddress w _).
  { apply dials_guarded_app; [apply guarded_registered|apply IH]. }
  destruct (set_has _ _ _).
  { apply dials_guarded_app; [apply guarded_quarantined|apply IH]. }
  destruct (netResolveTCPAddr w _) as [addr|e]; [|apply guarded_resolve].
  destruct (netDialTCP w addr) as [cn|e]; [|apply guarded_dialTCP].
  apply dials_guarded_app; [apply guarded_detected|apply IH].
Qed.

Lemma connectEach_guarded saved : ∀ w,
  dials_guarded (calls (connectEach saved w)).
Proof.
  induction saved as [|peer rest IH]; intros w; [apply dials_guarded_nil|].
  rewrite connectEach_cons. cbn zeta.
  destruct (hasAddress w _).
  { apply dials_guarded_app; [apply guarded_registered|apply IH]. }
  destruct (set_has _ _ _).
  { apply dials_guarded_app; [apply guarded_quarantined|apply IH]. }
  destruct (netDial w peer) as [cn|e].
  - apply dials_guarded_app; [apply guarded_dial_connected|apply IH].
  - apply dials_guarded_app; [apply guarded_dial_failed|apply IH].
Qed.

Lemma connectDbPeers_guarded w : dials_guarded (calls (connectDbPeers w)).
Proof.
  rewrite connectDbPeers_run.
  apply dials_guarded_app; [apply guarded_saved_peers|apply connectEach_guarded].
Qed.

Lemma hasAddress_true w a :
  hasAddress w a = true <->
  ∃ p c, p ∈ peers w ∧ heap w !! p = Some c ∧ address c = a.
Proof.
  unfold hasAddress. rewrite existsb_exists. split.
  - intros (p & Hp & Heq). apply list_elem_of_In, elem_of_elements in Hp.
    destruct (heap w !! p) as [c|] eqn:Hc; [|discriminate].
    apply String.eqb_eq in Heq. exists p, c. auto.
  - intros (p & c & Hp & Hc & Ha). exists p. split.
    + by apply list_elem_of_In, elem_of_elements.
    + rewrite Hc. by apply String.eqb_eq.
Qed.

(** C2. Discovery and reconciliation call the network for an address only
    right after asking the registry and the quarantine set about that very
    address and being told no by both: in discovery before the resolution
    and, through it, before the dial of the resolved address; in
    reconciliation before the dial. The two answers are those of the
    registry and of the set at the moment they are asked. *)
Theorem dial_only_if_unregistered_and_unquarantined :
  (∀ addresses w before addr answer rest,
     calls (handleDiscoverPeers addresses w) =
       before ++ EvDialTCP addr answer :: rest ->
     ∃ earlier a,
       before = earlier ++ [EvHasAddress a false; EvBadPeersHas a false;
                            EvResolveTCPAddr a (Ok addr)])
  ∧ (∀ addresses w before a answer rest,
       calls (handleDiscoverPeers addresses w) =
         before ++ EvResolveTCPAddr a answer :: rest ->
       ∃ earlier,
         before = earlier ++ [EvHasAddress a false; EvBadPeersHas a false])
  ∧ (∀ w before a answer rest,
       calls (connectDbPeers w) = before ++ EvDial a answer :: rest ->
       ∃ earlier,
         before = earlier ++ [EvHasAddress a false; EvBadPeersHas a false])
  ∧ (∀ a w,
       p2pPeers_HasAddress a w =
         (Some (hasAddress w a), w, [EvHasAddress a (hasAddress w a)])
       ∧ (hasAddress w a = true <->
          ∃ p c, p ∈ peers w ∧ heap w !! p = Some c ∧ address c = a))
  ∧ (∀ a w,
       let found := set_has (badPeers (co w)) (clock w (clockReads w)) a in
       badPeers_Has a w =
         (Some found, with_clockReads S w, [EvBadPeersHas a found])).
Proof.
  split; [|split; [|split; [|split]]].
  - intros addresses w before addr answer rest Heq.
    apply (handleDiscoverPeers_guarded addresses w _ _ _ Heq).
  - intros addresses w before a answer rest Heq.
    apply (handleDiscoverPeers_guarded addresses w _ _ _ Heq).
  - intros w before a answer rest Heq.
    apply (connectDbPeers_guarded w _ _ _ Heq).
  - intros a w. split; [reflexivity|apply hasAddress_true].
  - intros a w. reflexivity.
Qed.

(** ** A candidate that fails to resolve or to dial *)

Lemma handleDiscoverPeers_resolve_failure address rest w e :
  let a := canonicalAddress address in
  hasAddress w a = false ->
  set_has (badPeers (co w)) (clock w (clockReads w)) a = false ->
  netResolveTCPAddr w a = Err e ->
  handleDiscoverPeers (address :: rest) w =
  (Some tt, with_clockReads S w,
   [EvHasAddress a false; EvBadPeersHas a false; EvResolveTCPAddr a (Err e)]).
Proof.
  cbn zeta. intros Hreg Hbad Hres.
  rewrite handleDiscoverPeers_cons. cbn zeta.
  rewrite Hreg, Hbad, Hres. reflexivity.
Qed.

Lemma handleDiscoverPeers_dial_failure address rest w addr e :
  let a := canonicalAddress address in
  hasAddress w a = false ->
  set_has (badPeers (co w)) (clock w (clockReads w)) a = false ->
  netResolveTCPAddr w a = Ok addr ->
  netDialTCP w addr = Err e ->
  handleDiscoverPeers (address :: rest) w =
  (Some tt, with_clockReads S w,
   [EvHasAddress a false; EvBadPeersHas a false;
    EvResolveTCPAddr a (Ok addr); EvDialTCP addr (Err e)]).
Proof.
  cbn zeta. intros Hreg Hbad Hres Hdial.
  rewrite handleDiscoverPeers_cons. cbn zeta.
  rewrite Hreg, Hbad, Hres, Hdial. reflexivity.
Qed.

(** ** What discovery and reconciliation do to the registry *)

Lemma same_surroundings_refl w : same_surroundings w w.
Proof. repeat split. Qed.

Lemma connectEach_summary saved : ∀ w,
  let r := connectEach saved w in
  ∃ new,
    heap (after r) = heap w ++ new
    ∧ Forall fresh_connection new
    ∧ Forall (λ c, address c ∈ saved) new
    ∧ added (calls r) = seq (length (heap w)) (length new)
    ∧ spawned (calls r) = added (calls r)
    ∧ peers (after r) = list_to_set (added (calls r)) ∪ peers w
    ∧ persisted (calls r) = []
    ∧ tickSources (calls r) = 0%nat
    ∧ dbSavedPeers (after r) = dbSavedPeers w
    ∧ same_surroundings w (after r).
Proof.
  induction saved as [|peer rest IH]; intros w.
  - cbn. exists []. rewrite app_nil_r.
    repeat split; first [by constructor|by rewrite (left_id_L ∅ (∪))].
  - rewrite connectEach_cons. cbn zeta.
    destruct (hasAddress w peer).
    { destruct (IH w) as (new & Hh & Hf & Hin & IHr). exists new.
      split; [exact Hh|]. split; [exact Hf|]. split; [|exact IHr].
      eapply Forall_impl; [exact Hin|]. intros c Hc. by apply elem_of_cons; right. }
    destruct (set_has _ _ peer).
    { destruct (IH (with_clockReads S w)) as (new & Hh & Hf & Hin & IHr).
      exists new.
      split; [exact Hh|]. split; [exact Hf|]. split; [|exact IHr].
      eapply Forall_impl; [exact Hin|]. intros c Hc. by apply elem_of_cons; right. }
    destruct (netDial w peer) as [cn|e].
    + match goal with |- context [connectEach rest ?x] =>
        destruct (IH x)
          as (new & Hh & Hf & Hin & Ha & Hs & Hp & Hper & Ht & Hdb & Hsur)
      end.
      cbn in Hh, Ha, Hp, Hdb. rewrite length_app, Nat.add_1_r in Ha.
      exists (mkConn cn peer 0 (make 5) (make 5) :: new). cbn.
      split; [by rewrite Hh, <- app_assoc|].
      split; [constructor; [repeat split|exact Hf]|].
      split.
      { constructor; [by apply elem_of_cons; left|].
        eapply Forall_impl; [exact Hin|].
        intros c Hc. by apply elem_of_cons; right. }
      split; [by rewrite Ha|].
      split; [by rewrite Hs|].
      split; [rewrite Hp, (assoc_L (∪)), (comm_L (∪) (list_to_set _) {[_]}); reflexivity|].
      split; [exact Hper|]. split; [exact Ht|]. split; [exact Hdb|exact Hsur].
    + destruct (IH (with_clockReads S w)) as (new & Hh & Hf & Hin & IHr).
      exists new.
      split; [exact Hh|]. split; [exact Hf|]. split; [|exact IHr].
      eapply Forall_impl; [exact Hin|]. intros c Hc. by apply elem_of_cons; right.
Qed.

Lemma handleDiscoverPeers_summary addresses : ∀ w,
  let r := handleDiscoverPeers addresses w in
  ∃ new,
    heap (after r) = heap w ++ new
    ∧ Forall fresh_connection new
    ∧ Forall (λ c, address c ∈ canonicalAddress <$> addresses) new
    ∧ added (calls r) = seq (length (heap w)) (length new)
    ∧ spawned (calls r) = added (calls r)
    ∧ peers (after r) = list_to_set (added (calls r)) ∪ peers w
    ∧ persisted (calls r) = address <$> new
    ∧ tickSources (calls r) = 0%nat
    ∧ sends (calls r) = []
    ∧ dbSavedPeers (after r) = list_to_set (persisted (calls r)) ∪ dbSavedPeers w
    ∧ same_surroundings w (after r).
Proof.
  assert (Hweak : ∀ (x : string) l (new : list p2pConnection),
    Forall (λ c, address c ∈ l) new -> Forall (λ c, address c ∈ x :: l) new).
  { intros x l new H. eapply Forall_impl; [exact H|].
    intros c Hc. by apply elem_of_cons; right. }
  assert (Hnone : ∀ w : World, ∃ new : list p2pConnection,
    heap w = heap w ++ new
    ∧ Forall fresh_connection new
    ∧ Forall (λ c, address c ∈ @nil string) new
    ∧ @nil nat = seq (length (heap w)) (length new)
    ∧ @nil nat = []
    ∧ peers w = list_to_set (@nil nat) ∪ peers w
    ∧ @nil string = address <$> new
    ∧ 0%nat = 0%nat
    ∧ @nil (nat * iface) = []
    ∧ dbSavedPeers w = list_to_set (@nil string) ∪ dbSavedPeers w
    ∧ same_surroundings w w).
  { intros w. exists []. rewrite app_nil_r. cbn.
    rewrite !(left_id_L ∅ (∪)). repeat split; constructor. }
  induction addresses as [|address rest IH]; intros w; [apply Hnone|].
  rewrite handleDiscoverPeers_cons. cbn zeta. rewrite fmap_cons.
  destruct (hasAddress w _).
  { destruct (IH w) as (new & Hh & Hf & Hin & IHr). exists new.
    split; [exact Hh|]. split; [exact Hf|]. split; [by apply Hweak|exact IHr]. }
  destruct (set_has _ _ _).
  { destruct (IH (with_clockReads S w)) as (new & Hh & Hf & Hin & IHr).
    exists new.
    split; [exact Hh|]. split; [exact Hf|]. split; [by apply Hweak|exact IHr]. }
  destruct (netResolveTCPAddr w _) as [addr|e].
  2:{ destruct (Hnone w) as (new & Hh & Hf & Hin & IHr). exists new.
      split; [exact Hh|]. split; [exact Hf|]. split; [|exact IHr].
      eapply Forall_impl; [exact Hin|]. intros c Hc. by apply elem_of_nil in Hc. }
  destruct (netDialTCP w addr) as [cn|e].
  2:{ destruct (Hnone w) as (new & Hh & Hf & Hin & IHr). exists new.
      split; [exact Hh|]. split; [exact Hf|]. split; [|exact IHr].
      eapply Forall_impl; [exact Hin|]. intros c Hc. by apply elem_of_nil in Hc. }
  match goal with |- context [handleDiscoverPeers rest ?x] =>
    destruct (IH x)
      as (new & Hh & Hf & Hin & Ha & Hs & Hp & Hper & Ht & Hsnd & Hdb & Hsur)
  end.
  cbn in Hh, Ha, Hp, Hdb. rewrite length_app, Nat.add_1_r in Ha.
  exists (mkConn cn (canonicalAddress address) 0 (make 5) (make 5) :: new). cbn.
  split; [by rewrite Hh, <- app_assoc|].
  split; [constructor; [repeat split|exact Hf]|].
  split; [constructor; [by apply elem_of_cons; left|by apply Hweak]|].
  split; [by rewrite Ha|].
  split; [by rewrite Hs|].
  split; [rewrite Hp, (assoc_L (∪)), (comm_L (∪) (list_to_set _) {[_]}); reflexivity|].
  split; [by rewrite Hper|]. split; [exact Ht|]. split; [exact Hsnd|].
  split; [|exact Hsur].
  rewrite Hdb, (assoc_L (∪)), (comm_L (∪) (list_to_set _) {[_]}). reflexivity.
Qed.

Lemma connectDbPeers_summary w :
  let r := connectDbPeers w in
  ∃ new,
    heap (after r) = heap w ++ new
    ∧ Forall fresh_connection new
    ∧ Forall (λ c, address c ∈ dbSavedPeers w) new
    ∧ added (calls r) = seq (length (heap w)) (length new)
    ∧ spawned (calls r) = added (calls r)
    ∧ peers (after r) = list_to_set (added (calls r)) ∪ peers w
    ∧ persisted (calls r) = []
    ∧ tickSources (calls r) = 0%nat
    ∧ dbSavedPeers (after r) = dbSavedPeers w
    ∧ same_surroundings w (after r).
Proof.
  rewrite connectDbPeers_run.
  destruct (connectEach_summary (elements (dbSavedPeers w)) w)
    as (new & Hh & Hf & Hin & Hrest).
  exists new. split; [exact Hh|]. split; [exact Hf|]. split; [|exact Hrest].
  eapply Forall_impl; [exact Hin|]. intros c Hc. by apply elem_of_elements.
Qed.

Lemma lookup_kept (h new : list p2pConnection) p c :
  h !! p = Some c -> (h ++ new) !! p = Some c.
Proof. apply lookup_app_l_Some. Qed.

(** X1. Discovery changes no field of the coordinator, so a candidate that
    fails to resolve or to dial is not put into [badPeers]; it sends on no
    queue, leaves the chain height alone, and neither changes nor removes a
    connection, a registration or a saved address that was there. *)
Theorem handleDiscoverPeers_only_adds addresses w :
  let r := handleDiscoverPeers addresses w in
  co (after r) = co w
  ∧ sends (calls r) = []
  ∧ dbBlockchainHeight (after r) = dbBlockchainHeight w
  ∧ (∀ p c, heap w !! p = Some c -> heap (after r) !! p = Some c)
  ∧ peers w ⊆ peers (after r)
  ∧ dbSavedPeers w ⊆ dbSavedPeers (after r).
Proof.
  destruct (handleDiscoverPeers_summary addresses w)
    as (new & Hh & _ & _ & _ & _ & Hp & _ & _ & Hs & Hdb & Hco & Hheight & _).
  cbn zeta. split; [exact Hco|]. split; [exact Hs|]. split; [exact Hheight|].
  split; [|split].
  - intros p c Hc. rewrite Hh. by apply lookup_kept.
  - rewrite Hp. apply union_subseteq_r.
  - rewrite Hdb. apply union_subseteq_r.
Qed.

(** X2. Reconciliation changes no field of the coordinator, so a saved peer
    whose dial fails is not put into [badPeers]; it sends on no queue, saves
    no address (the store is as it was), and neither changes nor removes a
    connection or a registration that was there. *)
Theorem connectDbPeers_only_adds w :
  let r := connectDbPeers w in
  co (after r) = co w
  ∧ sends (calls r) = []
  ∧ persisted (calls r) = []
  ∧ dbSavedPeers (after r) = dbSavedPeers w
  ∧ dbBlockchainHeight (after r) = dbBlockchainHeight w
  ∧ (∀ p c, heap w !! p = Some c -> heap (after r) !! p = Some c)
  ∧ peers w ⊆ peers (after r).
Proof.
  destruct (connectDbPeers_summary w)
    as (new & Hh & _ & _ & _ & _ & Hp & Hper & _ & Hdb & Hco & Hheight & _).
  destruct (connectDbPeers_frame w) as (_ & Hs & _).
  cbn zeta in *. split; [exact Hco|]. split; [exact Hs|]. split; [exact Hper|].
  split; [exact Hdb|]. split; [exact Hheight|]. split.
  - intros p c Hc. rewrite Hh. by apply lookup_kept.
  - rewrite Hp. apply union_subseteq_r.
Qed.

(** X3. The connections a discovery batch or a reconciliation registers are
    the ones it allocates, at the next free places of the store and in that
    order: each is registered once and has its worker started, and each
    starts without a chain height and with two empty queues of capacity
    five. Nothing else enters the registry. *)
Theorem registered_with_worker_and_fresh :
  (∀ addresses w,
     let r := handleDiscoverPeers addresses w in
     ∃ new,
       heap (after r) = heap w ++ new
       ∧ Forall fresh_connection new
       ∧ added (calls r) = seq (length (heap w)) (length new)
       ∧ spawned (calls r) = added (calls r)
       ∧ peers (after r) = list_to_set (added (calls r)) ∪ peers w)
  ∧ (∀ w,
       let r := connectDbPeers w in
       ∃ new,
         heap (after r) = heap w ++ new
         ∧ Forall fresh_connection new
         ∧ added (calls r) = seq (length (heap w)) (length new)
         ∧ spawned (calls r) = added (calls r)
         ∧ peers (after r) = list_to_set (added (calls r)) ∪ peers w).
Proof.
  split.
  - intros addresses w.
    destruct (handleDiscoverPeers_summary addresses w)
      as (new & Hh & Hf & _ & Ha & Hs & Hp & _).
    exists new. auto.
  - intros w.
    destruct (connectDbPeers_summary w) as (new & Hh & Hf & _ & Ha & Hs & Hp & _).
    exists new. auto.
Qed.

(** X4. Discovery saves exactly the addresses of the connections it
    registers, in that order, and each of them is the canonical form of a
    candidate of the batch; the store afterwards is the store before with
    these addresses added. *)
Theorem handleDiscoverPeers_saves_what_it_registers addresses w :
  let r := handleDiscoverPeers addresses w in
  ∃ new,
    heap (after r) = heap w ++ new
    ∧ persisted (calls r) = address <$> new
    ∧ length (persisted (calls r)) = length (added (calls r))
    ∧ (∀ a, a ∈ persisted (calls r) ->
         ∃ candidate, candidate ∈ addresses ∧ a = canonicalAddress candidate)
    ∧ dbSavedPeers (after r) = list_to_set (persisted (calls r)) ∪ dbSavedPeers w.
Proof.
  destruct (handleDiscoverPeers_summary addresses w)
    as (new & Hh & _ & Hin & Ha & _ & _ & Hper & _ & _ & Hdb & _).
  cbn zeta in *. exists new. split; [exact Hh|]. split; [exact Hper|].
  split; [by rewrite Hper, Ha, length_fmap, length_seq|]. split; [|exact Hdb].
  intros a Ha'. rewrite Hper in Ha'.
  apply list_elem_of_fmap in Ha' as (c & -> & Hc).
  rewrite Forall_forall in Hin. specialize (Hin c Hc).
  apply list_elem_of_fmap in Hin as (candidate & Heq & Hcand). eauto.
Qed.

(** ** Addresses in the registry *)

Lemma hasAddress_ext w w' a :
  peers w' = peers w -> heap w' = heap w -> hasAddress w' a = hasAddress w a.
Proof. unfold hasAddress. by intros -> ->. Qed.

Lemma hasAddress_kept w w' new a :
  hasAddress w a = true ->
  peers w ⊆ peers w' ->
  heap w' = heap w ++ new ->
  hasAddress w' a = true.
Proof.
  rewrite !hasAddress_true. intros (p & c & Hp & Hc & Ha) Hsub Hh.
  exists p, c. split; [by apply Hsub|]. split; [|exact Ha].
  rewrite Hh. by apply lookup_kept.
Qed.

Lemma hasAddress_register c w : hasAddress (register c w) (address c) = true.
Proof.
  apply hasAddress_true. exists (length (heap w)), c. cbn.
  split; [apply elem_of_union_l, elem_of_singleton; reflexivity|].
  split; [|reflexivity]. by apply list_lookup_middle.
Qed.

Lemma hasAddress_register_kept c w a :
  hasAddress w a = true -> hasAddress (register c w) a = true.
Proof.
  intros H. apply (hasAddress_kept w _ [c] a H); [|reflexivity].
  cbn. apply union_subseteq_r.
Qed.

Lemma hasAddress_after_discovery addresses w a :
  hasAddress w a = true ->
  hasAddress (after (handleDiscoverPeers addresses w)) a = true.
Proof.
  intros H.
  destruct (handleDiscoverPeers_summary addresses w)
    as (new & Hh & _ & _ & _ & _ & Hp & _).
  cbn zeta in *. apply (hasAddress_kept w _ new a H); [|exact Hh].
  rewrite Hp. apply union_subseteq_r.
Qed.


(** X5. Within one discovery batch no address is saved, and so none is
    dialed with success and registered, twice, however often candidates
    with the same canonical form occur in the batch; an address that is
    saved was not registered when the batch began and is registered when it
    ends. *)
Theorem handleDiscoverPeers_no_address_twice addresses : ∀ w,
  let r := handleDiscoverPeers addresses w in
  NoDup (persisted (calls r))
  ∧ ∀ a, a ∈ persisted (calls r) ->
         hasAddress w a = false ∧ hasAddress (after r) a = true.
Proof.
  induction addresses as [|address rest IH]; intros w.
  { cbn. split; [constructor|]. intros a Ha. by apply elem_of_nil in Ha. }
  rewrite handleDiscoverPeers_cons. cbn zeta.
  destruct (hasAddress w _) eqn:Hreg; [apply IH|].
  destruct (set_has _ _ _).
  { destruct (IH (with_clockReads S w)) as [Hnd Hall]. split; [exact Hnd|].
    intros a Ha. destruct (Hall a Ha) as [H1 H2]. split; [|exact H2].
    rewrite <- H1. by apply hasAddress_ext. }
  destruct (netResolveTCPAddr w _) as [addr|e].
  2:{ cbn. split; [constructor|]. intros a Ha. by apply elem_of_nil in Ha. }
  destruct (netDialTCP w addr) as [cn|e].
  2:{ cbn. split; [constructor|]. intros a Ha. by apply elem_of_nil in Ha. }
  set (c := mkConn cn (canonicalAddress address) 0 (make 5) (make 5)).
  match goal with |- context [handleDiscoverPeers rest ?x] => set (w2 := x) end.
  assert (Hnow : hasAddress w2 (canonicalAddress address) = true).
  { rewrite (hasAddress_ext (register c w) w2) by reflexivity.
    apply (hasAddress_register c w). }
  assert (Hlater : ∀ a, hasAddress w a = true -> hasAddress w2 a = true).
  { intros a Ha. rewrite (hasAddress_ext (register c w) w2) by reflexivity.
    by apply hasAddress_register_kept. }
  destruct (IH w2) as [Hnd Hall]. cbn. split.
  - constructor; [|exact Hnd]. intros Hin.
    destruct (Hall _ Hin) as [Hnot _]. congruence.
  - intros a [->|Ha]%elem_of_cons.
    + split; [exact Hreg|]. by apply hasAddress_after_discovery.
    + destruct (Hall a Ha) as [H1 H2]. split; [|exact H2].
      destruct (hasAddress w a) eqn:Hw; [|reflexivity].
      rewrite (Hlater a Hw) in H1. discriminate H1.
Qed.

(** ** The registry stays in order *)

Lemma registry_ok_register ps h c :
  registry_ok ps h ->
  (∀ p d, p ∈ ps -> h !! p = Some d -> address d ≠ address c) ->
  registry_ok ({[length h]} ∪ ps) (h ++ [c]).
Proof.
  intros [Hwf Huniq] Hnew. split.
  - intros p [->%elem_of_singleton|Hp]%elem_of_union;
      rewrite length_app; cbn; [lia|].
    specialize (Hwf p Hp). lia.
  - assert (Hold : ∀ p d, p ∈ ps -> (h ++ [c]) !! p = Some d -> h !! p = Some d).
    { intros p d Hp Hd. specialize (Hwf p Hp).
      by rewrite lookup_app_l in Hd. }
    assert (Hlast : ∀ d, (h ++ [c]) !! length h = Some d -> d = c).
    { intros d Hd. rewrite list_lookup_middle in Hd by reflexivity. congruence. }
    intros p q d1 d2 [->%elem_of_singleton|Hp]%elem_of_union
                     [->%elem_of_singleton|Hq]%elem_of_union H1 H2 Heq.
    + reflexivity.
    + apply Hlast in H1 as ->. apply Hold in H2; [|exact Hq].
      destruct (Hnew q d2 Hq H2). congruence.
    + apply Hlast in H2 as ->. apply Hold in H1; [|exact Hp].
      destruct (Hnew p d1 Hp H1). congruence.
    + apply (Huniq p q d1 d2 Hp Hq); [by apply Hold|by apply Hold|exact Heq].
Qed.

Lemma registry_ok_alter ps h v p :
  registry_ok ps h -> registry_ok ps (alter (enqueue v) p h).
Proof.
  intros [Hwf Huniq]. split.
  - intros q Hq. rewrite length_alter. by apply Hwf.
  - assert (Hback : ∀ q d, alter (enqueue v) p h !! q = Some d ->
                           ∃ d', h !! q = Some d' ∧ address d' = address d).
    { intros q d Hd. destruct (decide (p = q)) as [<-|Hne].
      - rewrite list_lookup_alter_eq in Hd.
        destruct (h !! p) as [d'|]; [|discriminate].
        injection Hd as <-. exists d'. split; reflexivity.
      - rewrite list_lookup_alter_ne in Hd by assumption. exists d. auto. }
    intros q1 q2 d1 d2 Hq1 Hq2 H1 H2 Heq.
    apply Hback in H1 as (d1' & H1 & E1). apply Hback in H2 as (d2' & H2 & E2).
    apply (Huniq q1 q2 d1' d2' Hq1 Hq2 H1 H2). congruence.
Qed.

Lemma registry_ok_sendAll ps v l : ∀ h,
  registry_ok ps h -> registry_ok ps (sendAll v l h).
Proof.
  unfold sendAll. induction l as [|p l IH]; intros h Hok; [exact Hok|].
  cbn. apply IH. by apply registry_ok_alter.
Qed.

Lemma registry_ok_registered w c :
  registry_ok (peers w) (heap w) ->
  hasAddress w (address c) = false ->
  registry_ok (peers (register c w)) (heap (register c w)).
Proof.
  intros Hok Hnot. cbn. apply registry_ok_register; [exact Hok|].
  intros p d Hp Hd Heq.
  assert (hasAddress w (address c) = true) as Hyes
    by (apply hasAddress_true; eauto).
  congruence.
Qed.

Lemma connectEach_registry_ok saved : ∀ w,
  registry_ok (peers w) (heap w) ->
  let r := connectEach saved w in
  registry_ok (peers (after r)) (heap (after r)).
Proof.
  induction saved as [|peer rest IH]; intros w Hok; [exact Hok|].
  rewrite connectEach_cons. cbn zeta.
  destruct (hasAddress w peer) eqn:Hreg; [by apply IH|].
  destruct (set_has _ _ peer); [by apply (IH (with_clockReads S w))|].
  destruct (netDial w peer) as [cn|e]; [|by apply (IH (with_clockReads S w))].
  match goal with |- context [connectEach rest ?x] => apply (IH x) end.
  apply (registry_ok_registered w (mkConn cn peer 0 (make 5) (make 5)) Hok Hreg).
Qed.

Lemma handleDiscoverPeers_registry_ok addresses : ∀ w,
  registry_ok (peers w) (heap w) ->
  let r := handleDiscoverPeers addresses w in
  registry_ok (peers (after r)) (heap (after r)).
Proof.
  induction addresses as [|address rest IH]; intros w Hok; [exact Hok|].
  rewrite handleDiscoverPeers_cons. cbn zeta.
  destruct (hasAddress w _) eqn:Hreg; [by apply IH|].
  destruct (set_has _ _ _); [by apply (IH (with_clockReads S w))|].
  destruct (netResolveTCPAddr w _) as [addr|e]; [|exact Hok].
  destruct (netDialTCP w addr) as [cn|e]; [|exact Hok].
  match goal with |- context [handleDiscoverPeers rest ?x] => apply (IH x) end.
  apply (registry_ok_registered w
           (mkConn cn (canonicalAddress address) 0 (make 5) (make 5)) Hok Hreg).
Qed.

Lemma handleTimeTick_registry_ok w :
  registry_ok (peers w) (heap w) ->
  let r := handleTimeTick w in
  registry_ok (peers (after r)) (heap (after r)).
Proof.
  intros Hok. cbn zeta. rewrite handleTimeTick_run. cbn zeta.
  destruct (tickFlood_summary w) as (l1 & l2 & h & _ & Ha & _ & _).
  cbn zeta in Ha.
  assert (Hflood : registry_ok (peers (after (tickFlood w)))
                               (heap (after (tickFlood w)))).
  { rewrite Ha. cbn. by apply registry_ok_sendAll. }
  destruct (value (tickFlood w)); [|exact Hflood].
  rewrite tickReconnect_run. cbn zeta.
  destruct (GoTime.Sub _ _ >=? _); [|exact Hflood].
  rewrite connectDbPeers_run.
  match goal with |- context [connectEach ?l ?x] =>
    apply (connectEach_registry_ok l x) end.
  exact Hflood.
Qed.

(** X6. Every handler keeps the registry in order: if each registered
    pointer is allocated and no two registered connections carry the same
    address before a control message or a tick is handled, the same holds
    afterwards. *)
Theorem handlers_keep_registry_ok r w :
  (∀ f, r ≠ Elsewhere f) ->
  registry_ok (peers w) (heap w) ->
  registry_ok (peers (after (turn r w))) (heap (after (turn r w))).
Proof.
  intros Hr Hok. destruct r as [[p|addresses|]| |f]; cbn [turn].
  - rewrite handleSearchForBlocks_run. cbn zeta.
    destruct (blocked_at w p); cbn; [exact Hok|by apply registry_ok_alter].
  - by apply handleDiscoverPeers_registry_ok.
  - exact Hok.
  - by apply handleTimeTick_registry_ok.
  - destruct (Hr f). reflexivity.
Qed.

(** ** Reconciliation goes through all saved peers *)

Lemma connectEach_examines_all saved : ∀ w peer,
  peer ∈ saved ->
  ∃ found, EvHasAddress peer found ∈ calls (connectEach saved w).
Proof.
  induction saved as [|x rest IH]; intros w peer Hin;
    [by apply elem_of_nil in Hin|].
  rewrite connectEach_cons. cbn zeta.
  assert (Hstep : ∀ b more (r : option unit * World * list Event),
    (peer ∈ rest -> ∃ found, EvHasAddress peer found ∈ calls r) ->
    ∃ found, EvHasAddress peer found
             ∈ calls (prepend (EvHasAddress x b :: more) r)).
  { intros b more r Hrest. apply elem_of_cons in Hin as [->|Hin].
    - exists b. cbn. apply elem_of_cons. by left.
    - destruct (Hrest Hin) as [found Hfound]. exists found. cbn.
      apply elem_of_cons. right. apply elem_of_app. by right. }
  destruct (hasAddress w x); [apply Hstep, IH|].
  destruct (set_has _ _ x); [apply Hstep, IH|].
  destruct (netDial w x) as [cn|e]; apply Hstep, IH.
Qed.

(** X7. Reconciliation examines every saved address: whatever happens to
    the addresses before it, also a dial that fails, the registry is asked
    about each address of the saved-peer store. *)
Theorem connectDbPeers_examines_all w peer :
  peer ∈ dbSavedPeers w ->
  ∃ found, EvHasAddress peer found ∈ calls (connectDbPeers w).
Proof.
  intros Hin. rewrite connectDbPeers_run.
  destruct (connectEach_examines_all (elements (dbSavedPeers w)) w peer)
    as [found Hfound]; [by apply elem_of_elements|].
  exists found. cbn. apply elem_of_cons. by right.
Qed.




(** ** More on the time tick *)

(** X9. A tick that returns leaves [lastTickBlockchainHeight] at the greater
    of its old value and the persisted height; so growth is announced by one
    such tick only: a later tick that finds the field as this one left it
    and the chain no higher than this one saw it sends nothing. A tick that
    stands at a send on a full queue has seen the chain grow and has not
    advanced the field. *)
Theorem handleTimeTick_consumes_growth w :
  let r := handleTimeTick w in
  let w1 := after r in
  (value r = Some tt ->
     lastTickBlockchainHeight (co w1) =
       Z.max (lastTickBlockchainHeight (co w)) (dbBlockchainHeight w)
     ∧ ∀ w2,
         lastTickBlockchainHeight (co w2) = lastTickBlockchainHeight (co w1) ->
         dbBlockchainHeight w2 <= dbBlockchainHeight w ->
         sends (calls (handleTimeTick w2)) = [])
  ∧ (value r = None ->
       lastTickBlockchainHeight (co w1) = lastTickBlockchainHeight (co w)
       ∧ lastTickBlockchainHeight (co w) < dbBlockchainHeight w).
Proof.
  destruct (handleTimeTick_summary w)
    as (l1 & l2 & new & _ & _ & _ & Hcase). cbn zeta in *.
  split.
  - intros Hv.
    destruct Hcase as [(_ & Hlast & _)|(Hnone & _)]; [|congruence].
    assert (Hmax : lastTickBlockchainHeight (co (after (handleTimeTick w))) =
                   Z.max (lastTickBlockchainHeight (co w)) (dbBlockchainHeight w)).
    { rewrite Hlast.
      destruct (dbBlockchainHeight w >? lastTickBlockchainHeight (co w)) eqn:Hg.
      - apply Z.gtb_lt in Hg. lia.
      - rewrite Z.gtb_ltb in Hg. apply Z.ltb_ge in Hg. lia. }
    split; [exact Hmax|]. intros w2 Hco Hdb.
    destruct (handleTimeTick_summary w2)
      as (k1 & k2 & new2 & _ & Hsends & _ & Hcase2). cbn zeta in *.
    assert (Hg : (dbBlockchainHeight w2 >? lastTickBlockchainHeight (co w2)) = false).
    { rewrite Z.gtb_ltb. apply Z.ltb_ge. lia. }
    rewrite Hg in Hcase2.
    destruct Hcase2 as [(_ & _ & -> & _)|(_ & Hd & _)]; [exact Hsends|discriminate].
  - intros Hv.
    destruct Hcase as [(Hsome & _)|(_ & Hg & Hlast & _)]; [congruence|].
    split; [exact Hlast|]. by apply Z.gtb_lt in Hg.
Qed.

Lemma length_sendAll v l : ∀ h, length (sendAll v l h) = length h.
Proof.
  unfold sendAll. induction l as [|p l IH]; intros h; [reflexivity|].
  cbn. by rewrite IH, length_alter.
Qed.

Lemma added_of_sends v (l : list nat) : added ((λ p, EvSend p v) <$> l) = [].
Proof. induction l as [|p l IH]; [reflexivity|exact IH]. Qed.

Lemma persisted_of_sends v (l : list nat) :
  persisted ((λ p, EvSend p v) <$> l) = [].
Proof. induction l as [|p l IH]; [reflexivity|exact IH]. Qed.

Lemma tickSources_of_sends v (l : list nat) :
  tickSources ((λ p, EvSend p v) <$> l) = 0%nat.
Proof. induction l as [|p l IH]; [reflexivity|exact IH]. Qed.

Lemma added_app l1 l2 : added (l1 ++ l2) = added l1 ++ added l2.
Proof.
  induction l1 as [|e l1 IH]; [reflexivity|].
  destruct e; cbn; rewrite ?IH; reflexivity.
Qed.

Lemma persisted_app l1 l2 : persisted (l1 ++ l2) = persisted l1 ++ persisted l2.
Proof.
  induction l1 as [|e l1 IH]; [reflexivity|].
  destruct e; cbn; rewrite ?IH; reflexivity.
Qed.

Lemma tickSources_app l1 l2 :
  tickSources (l1 ++ l2) = (tickSources l1 + tickSources l2)%nat.
Proof.
  induction l1 as [|e l1 IH]; [reflexivity|].
  destruct e; cbn; rewrite ?IH; reflexivity.
Qed.

Lemma handleTimeTick_registry w :
  let r := handleTimeTick w in
  ∃ flooded new,
    heap (after r) = flooded ++ new
    ∧ length flooded = length (heap w)
    ∧ Forall fresh_connection new
    ∧ Forall (λ c, address c ∈ dbSavedPeers w) new
    ∧ added (calls r) = seq (length (heap w)) (length new)
    ∧ peers (after r) = list_to_set (added (calls r)) ∪ peers w
    ∧ persisted (calls r) = []
    ∧ tickSources (calls r) = 0%nat
    ∧ dbSavedPeers (after r) = dbSavedPeers w
    ∧ dbBlockchainHeight (after r) = dbBlockchainHeight w
    ∧ timeTicks (co (after r)) = timeTicks (co w)
    ∧ recentlyRequestedBlocks (co (after r)) = recentlyRequestedBlocks (co w)
    ∧ badPeers (co (after r)) = badPeers (co w).
Proof.
  cbn zeta. rewrite handleTimeTick_run. cbn zeta.
  destruct (tickFlood_summary w) as (l1 & l2 & h & _ & Ha & Hc & Hv).
  cbn zeta in *. set (msg := IBlockHashes _) in *.
  assert (Hnone : ∀ (hp : list p2pConnection) (ps : gset nat),
    hp = hp ++ [] ∧ ps = list_to_set (@nil nat) ∪ ps).
  { intros hp ps. cbn. by rewrite app_nil_r, (left_id_L ∅ (∪)). }
  destruct (tickFlood w) as [[u w1] evs1].
  unfold after, calls, value in Ha, Hc, Hv. cbn [fst snd] in Ha, Hc, Hv.
  subst w1 evs1.
  destruct Hv as [(-> & _)|(-> & _)].
  - cbn [value after calls fst snd]. rewrite tickReconnect_run. cbn.
    destruct (GoTime.Sub _ _ >=? _).
    + match goal with |- context [connectDbPeers ?x] =>
        destruct (connectDbPeers_summary x)
          as (new & Hh & Hf & Hin & Had & _ & Hp & Hper & Ht & Hdb & Hco & Hdbh & _)
      end.
      cbn in Hh, Hin, Had, Hp, Hdb, Hdbh. rewrite length_sendAll in Had.
      exists (sendAll msg l1 (heap w)), new.
      unfold prepend, after, calls, value in *. cbn [fst snd] in *.
      rewrite added_app, persisted_app, tickSources_app, added_of_sends,
        persisted_of_sends, tickSources_of_sends, Hper, Ht, Hco. cbn.
      repeat split; try assumption. apply length_sendAll.
    + exists (sendAll msg l1 (heap w)), []. cbn.
      rewrite ?app_nil_r, added_of_sends, persisted_of_sends, tickSources_of_sends.
      destruct (Hnone (sendAll msg l1 (heap w)) (peers w)) as [_ Hps].
      repeat split; try assumption; try constructor. apply length_sendAll.
  - exists (sendAll msg l1 (heap w)), []. cbn.
    rewrite ?app_nil_r, added_of_sends, persisted_of_sends, tickSources_of_sends.
    destruct (Hnone (sendAll msg l1 (heap w)) (peers w)) as [_ Hps].
    repeat split; try assumption; try constructor. apply length_sendAll.
Qed.

(** X10. A connection that the reconciliation of a tick registers has not
    received that tick's flood: whatever the tick allocates is registered,
    carries a saved address and starts with nothing sent on its outbound
    queue. *)
Theorem handleTimeTick_newcomers_miss_flood w p c :
  (length (heap w) <= p)%nat ->
  heap (after (handleTimeTick w)) !! p = Some c ->
  sent (chanToPeer c) = []
  ∧ p ∈ peers (after (handleTimeTick w))
  ∧ address c ∈ dbSavedPeers w.
Proof.
  intros Hp Hc.
  destruct (handleTimeTick_registry w)
    as (flooded & new & Hh & Hlen & Hf & Hin & Ha & Hps & _).
  cbn zeta in *. rewrite Hh in Hc.
  rewrite lookup_app_r in Hc by lia.
  assert (Hnew : c ∈ new) by (eapply list_elem_of_lookup_2; exact Hc).
  apply lookup_lt_Some in Hc.
  rewrite Forall_forall in Hf, Hin.
  destruct (Hf c Hnew) as (_ & Hchan & _).
  split; [by rewrite Hchan|]. split; [|by apply Hin].
  rewrite Hps, Ha. apply elem_of_union_l, elem_of_list_to_set, elem_of_seq. lia.
Qed.

(** X11. Of the coordinator's fields a tick writes none but
    [lastTickBlockchainHeight] and [lastReconnectTime]: the tick channel and
    both expiring sets are as before, so no dial that fails on a tick
    quarantines its address; and a tick saves no address and leaves the
    chain height alone. *)
Theorem handleTimeTick_leaves w :
  let r := handleTimeTick w in
  timeTicks (co (after r)) = timeTicks (co w)
  ∧ recentlyRequestedBlocks (co (after r)) = recentlyRequestedBlocks (co w)
  ∧ badPeers (co (after r)) = badPeers (co w)
  ∧ persisted (calls r) = []
  ∧ dbSavedPeers (after r) = dbSavedPeers w
  ∧ dbBlockchainHeight (after r) = dbBlockchainHeight w.
Proof.
  destruct (handleTimeTick_registry w)
    as (flooded & new & _ & _ & _ & _ & _ & _ & Hper & _ & Hdb & Hh & Ht & Hr & Hb).
  cbn zeta. auto 10.
Qed.

(** ** The start of the run loop *)

Lemma runLoop_calls_cons r rs w :
  ∃ rest, calls (runLoop (r :: rs) w) = calls (turn r w) ++ rest
          ∧ tickSources rest = tickSources
              (match value (turn r w) with
               | Some _ => calls (runLoop rs (after (turn r w)))
               | None => []
               end).
Proof.
  rewrite runLoop_cons.
  destruct (value (turn r w)).
  - eexists. split; reflexivity.
  - exists []. split; [by rewrite app_nil_r|reflexivity].
Qed.

Lemma turn_tickSources r w : tickSources (calls (turn r w)) = 0%nat.
Proof.
  destruct r as [[p|addresses|]| |f]; cbn [turn].
  - rewrite handleSearchForBlocks_run. cbn zeta.
    by destruct (blocked_at w p).
  - destruct (handleDiscoverPeers_summary addresses w)
      as (new & _ & _ & _ & _ & _ & _ & _ & Ht & _). exact Ht.
  - reflexivity.
  - destruct (handleTimeTick_registry w)
      as (flooded & new & _ & _ & _ & _ & _ & _ & _ & Ht & _). exact Ht.
  - reflexivity.
Qed.

Lemma runLoop_tickSources rs : ∀ w, tickSources (calls (runLoop rs w)) = 0%nat.
Proof.
  induction rs as [|r rs IH]; intros w; [reflexivity|].
  destruct (runLoop_calls_cons r rs w) as (rest & -> & Hrest).
  rewrite tickSources_app, turn_tickSources, Hrest.
  destruct (value (turn r w)); [apply IH|reflexivity].
Qed.

(** X12. [Run] starts the tick source once, and before it handles anything:
    its first call starts it, and no handler starts another, however many
    messages and ticks follow. *)
Theorem Run_starts_tick_source_once rs w :
  ∃ evs, calls (Run rs w) = EvGoTimeTickSource :: evs
         ∧ tickSources evs = 0%nat
         ∧ tickSources (calls (Run rs w)) = 1%nat.
Proof.
  unfold Run, dbGetBlockchainHeight. run_M.
  match goal with |- context [runLoop rs ?x] =>
    pose proof (runLoop_tickSources rs x) as Ht;
    destruct (runLoop rs x) as [[u w1] evs]
  end.
  cbn in *. exists evs. by rewrite Ht.
Qed.

(** ** Addresses with the same host *)

Lemma length_append s t :
  String.length (s +:+ t) = (String.length s + String.length t)%nat.
Proof.
  induction s as [|a s IH]; [reflexivity|].
  change (String a s +:+ t) with (String a (s +:+ t)).
  cbn [String.length]. by rewrite IH.
Qed.

Lemma append_cancel_r t : ∀ s1 s2, s1 +:+ t = s2 +:+ t -> s1 = s2.
Proof.
  induction s1 as [|a s1 IH]; intros [|b s2] Heq.
  - reflexivity.
  - apply (f_equal String.length) in Heq.
    rewrite !length_append in Heq. cbn in Heq. lia.
  - apply (f_equal String.length) in Heq.
    rewrite !length_append in Heq. cbn in Heq. lia.
  - change (String a (s1 +:+ t) = String b (s2 +:+ t)) in Heq.
    injection Heq as -> Heq. f_equal. by apply IH.
Qed.

(** X13. Two candidate addresses get the same canonical address exactly
    when their hosts agree, where the host of an address with a colon is
    what stands before its last colon and the host of an address without
    one is the address itself: what is written after the last colon never
    matters, and different hosts never fall together. *)
Theorem canonicalAddress_same_iff_same_host :
  (∀ a b, canonicalAddress a = canonicalAddress b <-> hostOf a = hostOf b)
  ∧ (∀ pre post, free_of colon post = true ->
       hostOf (pre +:+ String colon post) = pre)
  ∧ (∀ a, free_of colon a = true -> hostOf a = a).
Proof.
  split; [|split].
  - intros a b.
    change (canonicalAddress a)
      with (hostOf a +:+ (":" +:+ FormatInt DefaultP2PPort)).
    change (canonicalAddress b)
      with (hostOf b +:+ (":" +:+ FormatInt DefaultP2PPort)).
    split; [apply append_cancel_r|by intros ->].
  - intros pre post Hfree. unfold hostOf.
    rewrite (LastIndexByte_split _ _ _ Hfree).
    replace (Z.of_nat (String.length pre) >? -1) with true
      by (symmetry; apply Z.gtb_lt; lia).
    unfold slice_to. by rewrite Nat2Z.id, substring_prefix.
  - intros a Hfree. unfold hostOf.
    by rewrite (LastIndexByte_free _ _ Hfree).
Qed.

(** ** Only a dial that succeeds registers a connection *)

Lemma connectEach_dialed saved : ∀ w,
  let r := connectEach saved w in
  ∃ new, heap (after r) = heap w ++ new
         ∧ Forall (λ c, netDial w (address c) = Ok (conn c)) new.
Proof.
  induction saved as [|peer rest IH]; intros w.
  { exists []. split; [by rewrite app_nil_r|constructor]. }
  rewrite connectEach_cons. cbn zeta.
  destruct (hasAddress w peer); [apply IH|].
  destruct (set_has _ _ peer); [apply (IH (with_clockReads S w))|].
  destruct (netDial w peer) as [cn|e] eqn:Hd;
    [|apply (IH (with_clockReads S w))].
  match goal with |- context [connectEach rest ?x] =>
    destruct (IH x) as (new & Hh & Hall) end.
  cbn in Hh. exists (mkConn cn peer 0 (make 5) (make 5) :: new). cbn.
  split; [by rewrite Hh, <- app_assoc|]. constructor; [exact Hd|exact Hall].
Qed.

Lemma handleDiscoverPeers_dialed addresses : ∀ w,
  let r := handleDiscoverPeers addresses w in
  ∃ new, heap (after r) = heap w ++ new
         ∧ Forall (λ c, ∃ addr,
                     netResolveTCPAddr w (address c) = Ok addr
                     ∧ netDialTCP w addr = Ok (conn c)) new.
Proof.
  induction addresses as [|address rest IH]; intros w.
  { exists []. split; [by rewrite app_nil_r|constructor]. }
  rewrite handleDiscoverPeers_cons. cbn zeta.
  destruct (hasAddress w _); [apply IH|].
  destruct (set_has _ _ _); [apply (IH (with_clockReads S w))|].
  destruct (netResolveTCPAddr w _) as [addr|e] eqn:Hres.
  2:{ exists []. split; [by rewrite app_nil_r|constructor]. }
  destruct (netDialTCP w addr) as [cn|e] eqn:Hd.
  2:{ exists []. split; [by rewrite app_nil_r|constructor]. }
  match goal with |- context [handleDiscoverPeers rest ?x] =>
    destruct (IH x) as (new & Hh & Hall) end.
  cbn in Hh.
  exists (mkConn cn (canonicalAddress address) 0 (make 5) (make 5) :: new). cbn.
  split; [by rewrite Hh, <- app_assoc|].
  constructor; [|exact Hall]. exists addr. split; [exact Hres|exact Hd].
Qed.

(** X14. A connection is allocated, and so registered, only for an address
    whose dial succeeded, and it holds the socket that dial returned: in
    discovery the address resolved and the resolved address was dialed, in
    reconciliation the saved address itself was dialed. No handler registers
    a peer it could not connect to. *)
Theorem registered_only_after_successful_dial :
  (∀ addresses w p c,
     (length (heap w) <= p)%nat ->
     heap (after (handleDiscoverPeers addresses w)) !! p = Some c ->
     ∃ addr, netResolveTCPAddr w (address c) = Ok addr
             ∧ netDialTCP w addr = Ok (conn c))
  ∧ (∀ w p c,
       (length (heap w) <= p)%nat ->
       heap (after (connectDbPeers w)) !! p = Some c ->
       netDial w (address c) = Ok (conn c)).
Proof.
  split.
  - intros addresses w p c Hp Hc.
    destruct (handleDiscoverPeers_dialed addresses w) as (new & Hh & Hall).
    cbn zeta in *. rewrite Hh, lookup_app_r in Hc by exact Hp.
    rewrite Forall_forall in Hall. apply Hall.
    eapply list_elem_of_lookup_2. exact Hc.
  - intros w p c Hp Hc. rewrite connectDbPeers_run in Hc.
    destruct (connectEach_dialed (elements (dbSavedPeers w)) w)
      as (new & Hh & Hall).
    cbn zeta in *. cbn in Hc. rewrite Hh, lookup_app_r in Hc by exact Hp.
    rewrite Forall_forall in Hall. apply Hall.
    eapply list_elem_of_lookup_2. exact Hc.
Qed.

End Coordinator.

(** ** The handlers on the small node *)

(** C1. A batch whose first candidate does not resolve: the handler returns
    after the failed resolution and makes no call for the second candidate,
    which, handed over alone, is checked, resolved, dialed and registered. *)
Theorem handleDiscoverPeers_stops_at_failed_candidate :
  calls (handleDiscoverPeers 2017 ["nohost"; "10.0.0.2"]
           (@exampleWorld unit 2017 0)) =
    [EvHasAddress "nohost:2017" false; EvBadPeersHas "nohost:2017" false;
     EvResolveTCPAddr "nohost:2017" (Err "no such host")]
  ∧ calls (handleDiscoverPeers 2017 ["10.0.0.2"]
             (@exampleWorld unit 2017 0)) =
    [EvHasAddress "10.0.0.2:2017" false; EvBadPeersHas "10.0.0.2:2017" false;
     EvResolveTCPAddr "10.0.0.2:2017" (Ok (mkTCPAddr "10.0.0.2" 2017));
     EvDialTCP (mkTCPAddr "10.0.0.2" 2017) (Ok 2%nat);
     EvAdd 1; EvGoHandleConnection 1;
     EvLog "Detected canonical peer at 10.0.0.2:2017";
     EvDbSavePeer "10.0.0.2:2017"].
Proof. split; vm_compute; reflexivity. Qed.

Lemma dial_only_if_unregistered_and_unquarantined_witness :
  calls (connectDbPeers (@exampleWorld unit 2017 0)) =
    [EvDbGetSavedPeers; EvHasAddress "10.0.0.3:7777" false;
     EvBadPeersHas "10.0.0.3:7777" false]
    ++ EvDial "10.0.0.3:7777" (Ok 3%nat)
       :: [EvAdd 1; EvGoHandleConnection 1; EvHasAddress "10.0.0.1:7777" true]
  ∧ ∃ earlier,
      [EvDbGetSavedPeers; EvHasAddress "10.0.0.3:7777" false;
       EvBadPeersHas "10.0.0.3:7777" false] =
      earlier ++ [EvHasAddress "10.0.0.3:7777" false;
                  EvBadPeersHas "10.0.0.3:7777" false].
Proof.
  assert (H : calls (connectDbPeers (@exampleWorld unit 2017 0)) =
    [EvDbGetSavedPeers; EvHasAddress "10.0.0.3:7777" false;
     EvBadPeersHas "10.0.0.3:7777" false]
    ++ EvDial "10.0.0.3:7777" (Ok 3%nat)
       :: [EvAdd 1; EvGoHandleConnection 1; EvHasAddress "10.0.0.1:7777" true])
    by (vm_compute; reflexivity).
  split; [exact H|].
  exact (proj1 (proj2 (proj2
           (@dial_only_if_unregistered_and_unquarantined unit 2017)))
           (exampleWorld 2017 0) _ _ _ _ H).
Defined.

Lemma handleTimeTick_floods_on_growth_witness :
  lastTickBlockchainHeight (co (@exampleWorld unit 2017 0)) <
  dbBlockchainHeight (@exampleWorld unit 2017 0)
  ∧ (∀ p c, p ∈ peers (@exampleWorld unit 2017 0) ->
       heap (@exampleWorld unit 2017 0) !! p = Some c ->
       has_room (chanToPeer c) = true)
  ∧ value (handleTimeTick 7 "genesis" "blockhashes"
             (@exampleWorld unit 2017 0)) = Some tt
  ∧ lastTickBlockchainHeight
      (co (after (handleTimeTick 7 "genesis" "blockhashes"
                    (@exampleWorld unit 2017 0)))) = 103.
Proof.
  assert (H : lastTickBlockchainHeight (co (@exampleWorld unit 2017 0)) <
              dbBlockchainHeight (@exampleWorld unit 2017 0))
    by (vm_compute; reflexivity).
  assert (Hroom : ∀ p c, p ∈ peers (@exampleWorld unit 2017 0) ->
            heap (@exampleWorld unit 2017 0) !! p = Some c ->
            has_room (chanToPeer c) = true).
  { intros p c Hp Hc. cbn in Hp. apply elem_of_singleton in Hp as ->.
    cbn in Hc. injection Hc as <-. reflexivity. }
  split; [exact H|]. split; [exact Hroom|].
  destruct (proj1 (handleTimeTick_floods_on_growth 7 "genesis" "blockhashes"
                     (@exampleWorld unit 2017 0)) H Hroom)
    as (hashes & _ & _ & Hv & _ & _ & _ & _ & Hlast).
  split; [exact Hv|exact Hlast].
Defined.

(** Counterexample to C3 as the spec states it: a full queue. The one
    registered peer has five values standing in its buffer of five and the
    chain has grown from 100 to 103: the tick stands at the send to that
    peer, nothing has been sent or queued, and [lastTickBlockchainHeight] is
    still 100. *)
Lemma handleTimeTick_stands_at_full_queue :
  lastTickBlockchainHeight (co (@exampleFullWorld unit 2017 0)) = 100
  ∧ dbBlockchainHeight (@exampleFullWorld unit 2017 0) = 103
  ∧ elements (peers (@exampleFullWorld unit 2017 0)) = [0%nat]
  ∧ value (handleTimeTick 7 "genesis" "blockhashes"
             (@exampleFullWorld unit 2017 0)) = None
  ∧ sends (calls (handleTimeTick 7 "genesis" "blockhashes"
                    (@exampleFullWorld unit 2017 0))) = []
  ∧ heap (after (handleTimeTick 7 "genesis" "blockhashes"
                   (@exampleFullWorld unit 2017 0))) =
    heap (@exampleFullWorld unit 2017 0)
  ∧ lastTickBlockchainHeight
      (co (after (handleTimeTick 7 "genesis" "blockhashes"
                    (@exampleFullWorld unit 2017 0)))) = 100.
Proof. repeat split; vm_compute; reflexivity. Qed.

(** The loop fills a queue by itself: with a peer that takes nothing from
    its queue and a chain that grows by one before every tick, five ticks
    put five messages into the buffer of five, and the sixth stands at its
    send with [lastTickBlockchainHeight] one behind the chain. *)
Example Run_fills_queue_of_slow_peer :
  let grow := Elsewhere (with_dbBlockchainHeight (λ h, h + 1)) in
  let r := Run 2017 7 "genesis" "getblockhashes" "blockhashes"
             [grow; FromTimeTicks; grow; FromTimeTicks; grow; FromTimeTicks;
              grow; FromTimeTicks; grow; FromTimeTicks; grow; FromTimeTicks]
             (@exampleWorld unit 2017 0) in
  value r = None
  ∧ ((λ c, (buffered (chanToPeer c), capacity (chanToPeer c))) <$> heap (after r))
    = [(5%nat, 5%nat)]
  ∧ length (sends (calls r)) = 5%nat
  ∧ lastTickBlockchainHeight (co (after r)) = 108
  ∧ dbBlockchainHeight (after r) = 109.
Proof. repeat split; vm_compute; reflexivity. Qed.

Lemma lastTickBlockchainHeight_monotone_witness :
  FromCtrlChannel (p2pCtrlDiscoverPeers ["10.0.0.2"]) ≠ @FromTimeTicks unit
  ∧ lastTickBlockchainHeight
      (co (after (turn 2017 7 "genesis" "getblockhashes" "blockhashes"
                    (FromCtrlChannel (p2pCtrlDiscoverPeers ["10.0.0.2"]))
                    (@exampleWorld unit 2017 0)))) = 100
  ∧ lastTickBlockchainHeight
      (co (after (Run 2017 7 "genesis" "getblockhashes" "blockhashes"
                    [FromTimeTicks] (@exampleWorld unit 2017 0)))) <=
    lastTickBlockchainHeight
      (co (after (Run 2017 7 "genesis" "getblockhashes" "blockhashes"
                    ([FromTimeTicks]
                     ++ [Elsewhere (with_dbBlockchainHeight (λ _, 50));
                         FromTimeTicks])
                    (@exampleWorld unit 2017 0)))).
Proof.
  assert (H : FromCtrlChannel (p2pCtrlDiscoverPeers ["10.0.0.2"])
              ≠ @FromTimeTicks unit) by discriminate.
  split; [exact H|]. split.
  - exact (proj1 (proj2
             (@lastTickBlockchainHeight_monotone unit 2017 7 "genesis"
                "getblockhashes" "blockhashes")) _ (exampleWorld 2017 0) H).
  - exact (proj2 (proj2 (proj2 (proj2
             (@lastTickBlockchainHeight_monotone unit 2017 7 "genesis"
                "getblockhashes" "blockhashes"))))
             [FromTimeTicks]
             [Elsewhere (with_dbBlockchainHeight (λ _, 50)); FromTimeTicks]
             (exampleWorld 2017 0)).
Defined.

Lemma reconciliation_cadence_witness :
  EvDbGetSavedPeers
    ∈ calls (handleTimeTick 7 "genesis" "blockhashes"
               (@exampleWorld unit 2017 600000000000))
  ∧ 10 * GoTime.Minute <=
    GoTime.Sub (clock (@exampleWorld unit 2017 600000000000)
                  (clockReads (@exampleWorld unit 2017 600000000000)))
               (lastReconnectTime (co (@exampleWorld unit 2017 600000000000)))
  ∧ lastReconnectTime
      (co (after (handleTimeTick 7 "genesis" "blockhashes"
                    (@exampleWorld unit 2017 600000000000)))) = 600000000001.
Proof.
  assert (H : EvDbGetSavedPeers
    ∈ calls (handleTimeTick 7 "genesis" "blockhashes"
               (@exampleWorld unit 2017 600000000000))).
  { vm_compute. apply elem_of_cons. right. apply elem_of_cons. by left. }
  split; [exact H|].
  exact (proj1 (reconciliation_cadence 7 "genesis" "blockhashes"
                  (@exampleWorld unit 2017 600000000000)) H).
Defined.

Lemma handleSearchForBlocks_request_witness :
  heap (@exampleWorld unit 2017 0) !! 0%nat =
    Some (mkConn 1%nat "10.0.0.1:7777" 105 (make 5) (make 5))
  ∧ has_room (@make iface 5) = true
  ∧ value (handleSearchForBlocks 7 "genesis" "getblockhashes" 0%nat
             (@exampleWorld unit 2017 0)) = Some tt
  ∧ sends (calls (handleSearchForBlocks 7 "genesis" "getblockhashes" 0%nat
                    (@exampleWorld unit 2017 0))) =
    [(0%nat, IGetBlockHashes
               (mkGetBlockHashes (mkHeader 7 "genesis" "getblockhashes")
                                 103 105))].
Proof.
  assert (H : heap (@exampleWorld unit 2017 0) !! 0%nat =
              Some (mkConn 1%nat "10.0.0.1:7777" 105 (make 5) (make 5)))
    by reflexivity.
  assert (Hroom : has_room (@make iface 5) = true) by reflexivity.
  split; [exact H|]. split; [exact Hroom|].
  destruct (proj1 (handleSearchForBlocks_request 7 "genesis" "getblockhashes"
                     (@exampleWorld unit 2017 0) 0%nat _ H) Hroom)
    as (Hv & Hs & _).
  split; [exact Hv|exact Hs].
Defined.

(** Counterexample to C7 as the spec states it: a full queue. The
    connection handed over has five values standing in its buffer of five:
    the handler logs the range and stands at the send; no request has been
    sent and the queue is as it was. *)
Lemma handleSearchForBlocks_stands_at_full_queue :
  buffered (chanToPeer
              (mkConn 1%nat "10.0.0.1:7777" 105
                 (mkChan 5 [exampleOlder; exampleOlder; exampleOlder;
                            exampleOlder; exampleOlder] 0)
                 (@make unit 5))) = 5%nat
  ∧ heap (@exampleFullWorld unit 2017 0) !! 0%nat =
    Some (mkConn 1%nat "10.0.0.1:7777" 105
            (mkChan 5 [exampleOlder; exampleOlder; exampleOlder;
                       exampleOlder; exampleOlder] 0)
            (make 5))
  ∧ value (handleSearchForBlocks 7 "genesis" "getblockhashes" 0%nat
             (@exampleFullWorld unit 2017 0)) = None
  ∧ calls (handleSearchForBlocks 7 "genesis" "getblockhashes" 0%nat
             (@exampleFullWorld unit 2017 0)) =
    [EvLog "Searching for blocks from 103 to 105"]
  ∧ heap (after (handleSearchForBlocks 7 "genesis" "getblockhashes" 0%nat
                   (@exampleFullWorld unit 2017 0))) =
    heap (@exampleFullWorld unit 2017 0).
Proof. repeat split; vm_compute; reflexivity. Qed.

Lemma handleTimeTick_no_growth_witness :
  dbBlockchainHeight
    (with_co (set_lastTickBlockchainHeight 200) (@exampleWorld unit 2017 0)) <=
  lastTickBlockchainHeight
    (co (with_co (set_lastTickBlockchainHeight 200) (@exampleWorld unit 2017 0)))
  ∧ sends (calls (handleTimeTick 7 "genesis" "blockhashes"
                    (with_co (set_lastTickBlockchainHeight 200)
                       (@exampleWorld unit 2017 0)))) = []
  ∧ lastTickBlockchainHeight
      (co (after (handleTimeTick 7 "genesis" "blockhashes"
                    (with_co (set_lastTickBlockchainHeight 200)
                       (@exampleWorld unit 2017 0))))) = 200.
Proof.
  assert (H : dbBlockchainHeight
    (with_co (set_lastTickBlockchainHeight 200) (@exampleWorld unit 2017 0)) <=
  lastTickBlockchainHeight
    (co (with_co (set_lastTickBlockchainHeight 200) (@exampleWorld unit 2017 0))))
    by (vm_compute; discriminate).
  split; [exact H|].
  destruct (handleTimeTick_no_growth 7 "genesis" "blockhashes"
              (with_co (set_lastTickBlockchainHeight 200)
                 (@exampleWorld unit 2017 0)) H) as (Hs & _ & Hl).
  split; [exact Hs|exact Hl].
Defined.

Lemma canonicalAddress_drops_after_last_colon_witness :
  "::1" = ":" +:+ ":" +:+ "1"
  ∧ free_of colon "1" = true
  ∧ canonicalAddress 2017 "::1" = "::2017".
Proof.
  split; [reflexivity|]. split; [reflexivity|].
  exact (proj1 (canonicalAddress_drops_after_last_colon 2017 "::1" ":" "1"
                  eq_refl eq_refl)).
Defined.

(** ** More runs on the small node *)

Lemma handleDiscoverPeers_no_address_twice_witness :
  "10.0.0.2:2017"
    ∈ persisted (calls (handleDiscoverPeers 2017 ["10.0.0.2"; "10.0.0.2:99"]
                          (@exampleWorld unit 2017 0)))
  ∧ hasAddress (@exampleWorld unit 2017 0) "10.0.0.2:2017" = false
  ∧ hasAddress (after (handleDiscoverPeers 2017 ["10.0.0.2"; "10.0.0.2:99"]
                         (@exampleWorld unit 2017 0))) "10.0.0.2:2017" = true.
Proof.
  assert (H : "10.0.0.2:2017"
    ∈ persisted (calls (handleDiscoverPeers 2017 ["10.0.0.2"; "10.0.0.2:99"]
                          (@exampleWorld unit 2017 0))))
    by (vm_compute; apply elem_of_cons; left; reflexivity).
  split; [exact H|].
  exact (proj2 (handleDiscoverPeers_no_address_twice 2017
                  ["10.0.0.2"; "10.0.0.2:99"] (exampleWorld 2017 0)) _ H).
Defined.

Lemma handlers_keep_registry_ok_witness :
  registry_ok (peers (@exampleWorld unit 2017 600000000000))
              (heap (@exampleWorld unit 2017 600000000000))
  ∧ registry_ok
    (peers (after (turn 2017 7 "genesis" "getblockhashes" "blockhashes"
                     FromTimeTicks (@exampleWorld unit 2017 600000000000))))
    (heap (after (turn 2017 7 "genesis" "getblockhashes" "blockhashes"
                    FromTimeTicks (@exampleWorld unit 2017 600000000000)))).
Proof.
  assert (H : registry_ok (peers (@exampleWorld unit 2017 600000000000))
                          (heap (@exampleWorld unit 2017 600000000000))).
  { split.
    - intros p Hp. cbn in Hp. apply elem_of_singleton in Hp as ->. cbn. lia.
    - intros p q c d Hp Hq _ _ _. cbn in Hp, Hq.
      apply elem_of_singleton in Hp as ->. apply elem_of_singleton in Hq as ->.
      reflexivity. }
  split; [exact H|].
  apply (handlers_keep_registry_ok 2017 7 "genesis" "getblockhashes"
           "blockhashes" FromTimeTicks (exampleWorld 2017 600000000000));
    [intros f; discriminate|exact H].
Defined.

Lemma connectDbPeers_examines_all_witness :
  "10.0.0.3:7777" ∈ dbSavedPeers (@exampleWorld unit 2017 0)
  ∧ ∃ found, EvHasAddress "10.0.0.3:7777" found
             ∈ calls (connectDbPeers (@exampleWorld unit 2017 0)).
Proof.
  assert (H : "10.0.0.3:7777" ∈ dbSavedPeers (@exampleWorld unit 2017 0))
    by (cbn; apply elem_of_union_r, elem_of_singleton; reflexivity).
  split; [exact H|].
  exact (connectDbPeers_examines_all (exampleWorld 2017 0) "10.0.0.3:7777" H).
Defined.


Lemma handleTimeTick_consumes_growth_witness :
  value (handleTimeTick 7 "genesis" "blockhashes"
           (@exampleWorld unit 2017 0)) = Some tt
  ∧ lastTickBlockchainHeight
      (co (after (handleTimeTick 7 "genesis" "blockhashes"
                    (@exampleWorld unit 2017 0)))) = 103
  ∧ sends (calls (handleTimeTick 7 "genesis" "blockhashes"
                    (after (handleTimeTick 7 "genesis" "blockhashes"
                              (@exampleWorld unit 2017 0))))) = [].
Proof.
  assert (Hv : value (handleTimeTick 7 "genesis" "blockhashes"
                        (@exampleWorld unit 2017 0)) = Some tt)
    by (vm_compute; reflexivity).
  split; [exact Hv|].
  destruct (proj1 (handleTimeTick_consumes_growth 7 "genesis" "blockhashes"
                     (@exampleWorld unit 2017 0)) Hv) as [Hmax Hnext].
  split; [exact Hmax|].
  apply Hnext; [reflexivity|vm_compute; discriminate].
Defined.

Lemma handleTimeTick_newcomers_miss_flood_witness :
  heap (after (handleTimeTick 7 "genesis" "blockhashes"
                 (@exampleWorld unit 2017 600000000000))) !! 1%nat =
    Some (mkConn 3%nat "10.0.0.3:7777" 0 (make 5) (make 5))
  ∧ 1%nat ∈ peers (after (handleTimeTick 7 "genesis" "blockhashes"
                            (@exampleWorld unit 2017 600000000000))).
Proof.
  assert (H : heap (after (handleTimeTick 7 "genesis" "blockhashes"
                             (@exampleWorld unit 2017 600000000000))) !! 1%nat =
              Some (mkConn 3%nat "10.0.0.3:7777" 0 (make 5) (make 5)))
    by (vm_compute; reflexivity).
  split; [exact H|].
  refine (proj1 (proj2 (handleTimeTick_newcomers_miss_flood 7 "genesis"
            "blockhashes" (exampleWorld 2017 600000000000) 1%nat _ _ H))).
  cbn. lia.
Defined.

Lemma canonicalAddress_same_iff_same_host_witness :
  free_of colon "9999" = true ∧ hostOf "1.2.3.4:9999" = "1.2.3.4".
Proof.
  split; [reflexivity|].
  exact (proj1 (proj2 (canonicalAddress_same_iff_same_host 2017))
           "1.2.3.4" "9999" eq_refl).
Defined.

Lemma registered_only_after_successful_dial_witness :
  heap (after (connectDbPeers (@exampleWorld unit 2017 0))) !! 1%nat =
    Some (mkConn 3%nat "10.0.0.3:7777" 0 (make 5) (make 5))
  ∧ netDial (@exampleWorld unit 2017 0) "10.0.0.3:7777" = Ok 3%nat.
Proof.
  assert (H : heap (after (connectDbPeers (@exampleWorld unit 2017 0))) !! 1%nat =
              Some (mkConn 3%nat "10.0.0.3:7777" 0 (make 5) (make 5)))
    by (vm_compute; reflexivity).
  split; [exact H|].
  refine (proj2 (@registered_only_after_successful_dial unit 2017)
            (exampleWorld 2017 0) 1%nat _ _ H).
  cbn. lia.
Defined.
